(** * A shallow embedding of [turingmachine.py]

    The Python module defines two classes, [Tape] (a list of cells with a
    head index that grows on demand) and [TuringMachine] (a control state,
    a transition dictionary and the [advance]/[run] protocol), followed by
    a demo driver that builds Caesar-cipher transition tables.

    Python objects are mutable; every method is embedded as a function from
    the object's state before the call to its state after the call.  A
    method that can raise returns the state it leaves behind together with
    either its value or the exception. *)

From stdpp Require Import base gmap list strings.
From Stdlib Require Import ZArith Lia.
From Stdlib Require Import Ascii.

Local Open Scope string_scope.
Local Open Scope list_scope.
Local Open Scope Z_scope.

(** ** Python values used by the module *)

(** A tape symbol is a Python [str]; a cell holds a symbol or [None]. *)
Definition symbol : Type := string.
Definition cell : Type := option symbol.

(** The exceptions the module can raise: list indexing out of range and a
    dictionary lookup miss (carrying the missing key). *)
Inductive exn : Type :=
| IndexError
| KeyError (key : Z * cell).

Inductive result (A : Type) : Type :=
| Ok (a : A)
| Raise (e : exn).
Arguments Ok {A} a.
Arguments Raise {A} e.

(** [list(s)] for a string [s]: its characters, each a one-character [str]. *)
Definition py_list_of_str (s : string) : list cell :=
  map (fun a => Some (String a EmptyString)) (String.list_ascii_of_string s).

(** [[None] * n]: a non-positive count gives the empty list. *)
Definition py_none_times (n : Z) : list cell := replicate (Z.to_nat n) None.

(** Index resolution of [l[i]] on a list of length [n]: indices in
    [0, n) address from the front, indices in [-n, 0) from the back,
    anything else raises [IndexError]. *)
Definition py_index (n i : Z) : option nat :=
  if (0 <=? i) && (i <? n) then Some (Z.to_nat i)
  else if (- n <=? i) && (i <? 0) then Some (Z.to_nat (n + i))
  else None.

Definition py_getitem (l : list cell) (i : Z) : result cell :=
  match py_index (Z.of_nat (length l)) i with
  | Some k => match l !! k with Some c => Ok c | None => Raise IndexError end
  | None => Raise IndexError
  end.

Definition py_setitem (l : list cell) (i : Z) (v : cell) : result (list cell) :=
  match py_index (Z.of_nat (length l)) i with
  | Some k => Ok (<[k:=v]> l)
  | None => Raise IndexError
  end.

(** ** class Tape *)

(** The nested class [Tape.direction]. *)
Module direction.
Definition right : string := "R".
Definition left : string := "L".
Definition stay : string := "S".
End direction.

Record Tape : Type := mkTape {
  _list : list cell;
  _loc : Z;
  _min_loc : Z;
  _max_loc : Z
}.

Definition _get_max_loc (l : list cell) : Z := Z.of_nat (length l) - 1.

(** [Tape.__init__(initial_state, start_size)].  An argument is [None] or a
    value; the empty string and the integer zero are falsy. *)
Definition truthy_str (o : option string) : bool :=
  match o with
  | Some s => negb (String.eqb s "")
  | None => false
  end.

Definition truthy_int (o : option Z) : bool :=
  match o with
  | Some n => negb (n =? 0)
  | None => false
  end.

Definition Tape_init (initial_state : option string) (start_size : option Z) : Tape :=
  let l :=
    if truthy_str initial_state then py_list_of_str (default "" initial_state)
    else if truthy_int start_size then py_none_times (default 0 start_size)
    else [] in
  {| _list := l; _loc := 0; _min_loc := 0; _max_loc := _get_max_loc l |}.

Definition _expand_left (n_spaces : Z) (t : Tape) : Tape :=
  let l := py_none_times n_spaces ++ _list t in
  {| _list := l;
     _loc := _loc t + n_spaces;
     _min_loc := _min_loc t;
     _max_loc := _get_max_loc l |}.

Definition _expand_right (n_spaces : Z) (t : Tape) : Tape :=
  let l := _list t ++ py_none_times n_spaces in
  {| _list := l;
     _loc := _loc t;
     _min_loc := _min_loc t;
     _max_loc := _get_max_loc l |}.

Definition set_loc (i : Z) (t : Tape) : Tape :=
  {| _list := _list t; _loc := i; _min_loc := _min_loc t; _max_loc := _max_loc t |}.

Definition move_left (t : Tape) : Tape :=
  let t1 := if _loc t =? _min_loc t then _expand_left 1 t else t in
  set_loc (_loc t1 - 1) t1.

Definition move_right (t : Tape) : Tape :=
  let t1 := if _loc t =? _max_loc t then _expand_right 1 t else t in
  set_loc (_loc t1 + 1) t1.

Definition get_char (t : Tape) : result cell := py_getitem (_list t) (_loc t).

Definition set_char (value : cell) (t : Tape) : result Tape :=
  match py_setitem (_list t) (_loc t) value with
  | Ok l => Ok {| _list := l; _loc := _loc t;
                  _min_loc := _min_loc t; _max_loc := _max_loc t |}
  | Raise e => Raise e
  end.

(** [''.join([item for item in self._list if item != None])] *)
Definition is_not_None (c : cell) : bool :=
  match c with Some _ => true | None => false end.

Definition py_join (sep : string) (items : list cell) : string :=
  String.concat sep (map (default "") items).

Definition get_string (t : Tape) : string :=
  py_join "" (List.filter is_not_None (_list t)).

(** ** Programs over a mutable object

    A method body is a program over the state [S] of its object: it returns
    the state it leaves behind and either a value or the exception raised.
    An exception stops the rest of the body and keeps the mutations made so
    far. *)

Definition prog (S A : Type) : Type := S -> S * result A.

Definition ret {S A : Type} (a : A) : prog S A := fun s => (s, Ok a).

Definition raise {S A : Type} (e : exn) : prog S A := fun s => (s, Raise e).

Definition bind {S A B : Type} (c : prog S A) (k : A -> prog S B) : prog S B :=
  fun s =>
    match c s with
    | (s', Ok a) => k a s'
    | (s', Raise e) => (s', Raise e)
    end.

Definition gets {S A : Type} (f : S -> A) : prog S A := fun s => (s, Ok (f s)).

Definition modify {S : Type} (f : S -> S) : prog S unit := fun s => (f s, Ok tt).

Declare Scope prog_scope.
Delimit Scope prog_scope with prog.
Notation "x <~ c ;~ k" := (bind c (fun x => k))
  (at level 20, c at level 99, k at level 200, only parsing) : prog_scope.
Notation "c ;~ k" := (bind c (fun _ => k))
  (at level 100, k at level 200, right associativity, only parsing) : prog_scope.

(** ** class TuringMachine *)

(** A table entry: next state, symbol to write, direction value. *)
Abbreviation transition := (Z * cell * string)%type.

Record TuringMachine : Type := mkTM {
  tape : Tape;
  states : list Z;
  current_state : Z;
  current_input : cell;
  _accepting_states : list Z;
  _rejecting_states : list Z;
  _transition_fn : gmap (Z * cell) transition
}.

Definition set_tape (t : Tape) (m : TuringMachine) : TuringMachine :=
  mkTM t (states m) (current_state m) (current_input m)
       (_accepting_states m) (_rejecting_states m) (_transition_fn m).

Definition set_current_state (q : Z) (m : TuringMachine) : TuringMachine :=
  mkTM (tape m) (states m) q (current_input m)
       (_accepting_states m) (_rejecting_states m) (_transition_fn m).

Definition set_current_input (c : cell) (m : TuringMachine) : TuringMachine :=
  mkTM (tape m) (states m) (current_state m) c
       (_accepting_states m) (_rejecting_states m) (_transition_fn m).

(** [self.tape.get_char()], [self.tape.set_char(v)] and the two moves, as
    programs over the machine that owns the tape. *)
Definition tape_get_char : prog TuringMachine cell :=
  fun m => (m, get_char (tape m)).

Definition tape_set_char (v : cell) : prog TuringMachine unit :=
  fun m =>
    match set_char v (tape m) with
    | Ok t => (set_tape t m, Ok tt)
    | Raise e => (m, Raise e)
    end.

Definition tape_move (f : Tape -> Tape) : prog TuringMachine unit :=
  modify (fun m => set_tape (f (tape m)) m).

(** [self._transition_fn[key]] *)
Definition transition_lookup (key : Z * cell) : prog TuringMachine transition :=
  fun m =>
    match _transition_fn m !! key with
    | Some tr => (m, Ok tr)
    | None => (m, Raise (KeyError key))
    end.

(** [TuringMachine.__init__]: reads the head cell once, so it raises when
    the tape has no cell under the head. *)
Definition TuringMachine_init (initial_tape : Tape) (initial_state : Z)
    (sts accepting_states rejecting_states : list Z)
    (transitions : gmap (Z * cell) transition) : result TuringMachine :=
  match get_char initial_tape with
  | Ok c => Ok (mkTM initial_tape sts initial_state c
                     accepting_states rejecting_states transitions)
  | Raise e => Raise e
  end.

Definition advance : prog TuringMachine unit :=
  (c <~ tape_get_char ;~
   modify (set_current_input c) ;~
   q <~ gets current_state ;~
   next_config <~ transition_lookup (q, c) ;~
   let '(next_state, char_out, dir) := next_config in
   modify (set_current_state next_state) ;~
   tape_set_char char_out ;~
   if String.eqb dir direction.right then tape_move move_right
   else if String.eqb dir direction.left then tape_move move_left
   else if String.eqb dir direction.stay then ret tt
   else ret tt)%prog.

(** [x in l] for a list of integers. *)
Definition py_in (x : Z) (l : list Z) : bool := existsb (Z.eqb x) l.

Definition accepting (m : TuringMachine) : bool :=
  py_in (current_state m) (_accepting_states m).

(** What [run] writes to the terminal: the five fields of the formatted
    configuration line, or a drawing of the tape (its cells and the
    highlighted index).  The pacing [sleep] calls are not modelled. *)
Inductive event : Type :=
| PrintConfig (state : Z) (input output : cell) (next_state : Z) (dir : string)
| DrawTape (cells : list cell) (head : Z).

Record world : Type := mkWorld {
  machine : TuringMachine;
  stdout : list event
}.

Definition on_machine {A : Type} (c : prog TuringMachine A) : prog world A :=
  fun w =>
    match c (machine w) with
    | (m, r) => (mkWorld m (stdout w), r)
    end.

Definition print (e : event) : prog world unit :=
  modify (fun w => mkWorld (machine w) (stdout w ++ [e])).

Definition tape_draw : prog world unit :=
  (t <~ gets (fun w => tape (machine w)) ;~
   print (DrawTape (_list t) (_loc t)))%prog.

(** The body of the [while] loop of [run], after the call to [advance]:
    it returns the value of the local variable [draw] for the next
    iteration. *)
Definition run_report (draw print_configs : bool) : prog world bool :=
  (draw1 <~ (if print_configs then
               q <~ gets (fun w => current_state (machine w)) ;~
               c <~ gets (fun w => current_input (machine w)) ;~
               tr <~ on_machine (transition_lookup (q, c)) ;~
               let '(next_state, output, dir) := tr in
               print (PrintConfig q c output next_state dir) ;~
               ret false
             else ret draw) ;~
   (if draw1 then tape_draw else ret tt) ;~
   ret draw1)%prog.

Definition run_body (draw print_configs : bool) : prog world bool :=
  (on_machine advance ;~ run_report draw print_configs)%prog.

Inductive outcome (A : Type) : Type :=
| Returned (a : A)
| Raised (e : exn)
| OutOfFuel.
Arguments Returned {A} a.
Arguments Raised {A} e.
Arguments OutOfFuel {A}.

(** [run(draw, print_configs)]; [fuel] bounds the number of times the loop
    condition is evaluated. *)
Fixpoint run (fuel : nat) (draw print_configs : bool) (w : world)
    : world * outcome string :=
  match fuel with
  | O => (w, OutOfFuel)
  | S fuel' =>
    if accepting (machine w) then (w, Returned (get_string (tape (machine w))))
    else
      match run_body draw print_configs w with
      | (w', Ok draw') => run fuel' draw' print_configs w'
      | (w', Raise e) => (w', Raised e)
      end
  end.

(** ** The demo driver ([__main__]) *)

Definition ascii_lowercase : string := "abcdefghijklmnopqrstuvwxyz".

Definition ord (a : ascii) : Z := Z.of_N (Ascii.N_of_ascii a).
Definition chr (z : Z) : ascii := Ascii.ascii_of_N (Z.to_N z).

(** [cipher(c, shift)]; Python's [%] with a positive modulus is [Z.modulo]. *)
Definition cipher (c : ascii) (shift : Z) : ascii :=
  let byte := ord c - ord "a"%char in
  let byte := (byte + shift) mod Z.of_nat (String.length ascii_lowercase) in
  chr (byte + ord "a"%char).

Definition str1 (a : ascii) : symbol := String a EmptyString.

(** The two table-building blocks of the driver differ only in the shift
    handed to [cipher] ([shift] to encrypt, [-shift] to decrypt); each
    assignment [transitions[k] = v] is a map insertion. *)
Definition cipher_transitions (shift : Z) : gmap (Z * cell) transition :=
  let per_letter (tr : gmap (Z * cell) transition) (c : ascii) :=
    let tr := <[(0, Some (str1 c)) := (1, Some (str1 c), direction.stay)]> tr in
    let tr := <[(1, Some (str1 c)) :=
                  (1, Some (str1 (cipher c shift)), direction.right)]> tr in
    <[(1, None) := (2, None, direction.stay)]> tr in
  let per_state (tr : gmap (Z * cell) transition) (s : Z) :=
    <[(s, Some " ") := (s, Some " ", direction.right)]> tr in
  foldl per_state
        (foldl per_letter ∅ (String.list_ascii_of_string ascii_lowercase))
        [0; 1; 2].

(** The machine the driver constructs on a fresh tape holding [text]. *)
Definition cipher_machine (text : string) (shift : Z) : result TuringMachine :=
  TuringMachine_init (Tape_init (Some text) None) 0 [0; 1; 2] [2] []
                     (cipher_transitions shift).

(** Construct that machine and run it; an exception of the constructor
    ends the driver before any step. *)
Definition run_cipher (fuel : nat) (text : string) (shift : Z)
    (draw print_configs : bool) : outcome string :=
  match cipher_machine text shift with
  | Ok T => snd (run fuel draw print_configs (mkWorld T []))
  | Raise e => Raised e
  end.

(** The driver: encrypt, then decrypt the ciphertext; it yields both
    strings. *)
Definition main (fuel : nat) (plaintext : string) (shift : Z)
    : outcome (string * string) :=
  match run_cipher fuel plaintext shift true false with
  | Returned ciphertext =>
      match run_cipher fuel ciphertext (- shift) true false with
      | Returned plaintext' => Returned (ciphertext, plaintext')
      | Raised e => Raised e
      | OutOfFuel => OutOfFuel
      end
  | Raised e => Raised e
  | OutOfFuel => OutOfFuel
  end.

(** ** Call sequences and the notions the properties are stated with *)

(** A call on a tape: one of the two moves, a read or a write. *)
Inductive head_move : Type := ToLeft | ToRight.

Inductive tape_op : Type :=
| Move (d : head_move)
| GetChar
| SetChar (value : cell).

Definition apply_move (d : head_move) (t : Tape) : Tape :=
  match d with
  | ToLeft => move_left t
  | ToRight => move_right t
  end.

Definition apply_op (op : tape_op) (t : Tape) : result Tape :=
  match op with
  | Move d => Ok (apply_move d t)
  | GetChar => match get_char t with Ok _ => Ok t | Raise e => Raise e end
  | SetChar v => set_char v t
  end.

(** The calls of [ops] in order; the first exception ends the sequence. *)
Fixpoint run_ops (ops : list tape_op) (t : Tape) : result Tape :=
  match ops with
  | [] => Ok t
  | op :: ops' =>
      match apply_op op t with
      | Ok t' => run_ops ops' t'
      | Raise e => Raise e
      end
  end.

Definition apply_moves (ds : list head_move) (t : Tape) : Tape :=
  foldl (fun t d => apply_move d t) t ds.

(** The head lies within the recorded bounds and on a cell of the list. *)
Definition head_in_bounds (t : Tape) : Prop :=
  _min_loc t <= _loc t <= _max_loc t /\
  0 <= _loc t < Z.of_nat (length (_list t)).

(** A call sequence is safe on a tape when it runs to its end without an
    exception and leaves the head in bounds. *)
Definition ops_safe (ops : list tape_op) (t : Tape) : Prop :=
  exists t', run_ops ops t = Ok t' /\ head_in_bounds t'.

(** The representation invariant of a tape with a cell under its head. *)
Definition tape_wf (t : Tape) : Prop :=
  _min_loc t = 0 /\
  _max_loc t = Z.of_nat (length (_list t)) - 1 /\
  0 <= _loc t <= _max_loc t.

(** A move crosses a boundary when the head is on the allocated side of
    that bound and one step takes it beyond. *)
Definition crosses (d : head_move) (t : Tape) : bool :=
  match d with
  | ToLeft => (_min_loc t <=? _loc t) && (_loc t - 1 <? _min_loc t)
  | ToRight => (_loc t <=? _max_loc t) && (_max_loc t <? _loc t + 1)
  end.

(** Without growth, the head after the move would be outside the bounds. *)
Definition would_leave_bounds (d : head_move) (t : Tape) : bool :=
  let target := match d with ToLeft => _loc t - 1 | ToRight => _loc t + 1 end in
  negb ((_min_loc t <=? target) && (target <=? _max_loc t)).

Fixpoint crossings (ds : list head_move) (t : Tape) : nat :=
  match ds with
  | [] => O
  | d :: ds' =>
      ((if crosses d t then 1 else 0) + crossings ds' (apply_move d t))%nat
  end.

(** The serialization as the specification words it: the non-blank
    symbols in storage order, blank cells contributing nothing. *)
Fixpoint nonblank_concat (cells : list cell) : string :=
  match cells with
  | [] => ""
  | None :: rest => nonblank_concat rest
  | Some s :: rest => (s ++ nonblank_concat rest)%string
  end.

(** The head movement a direction value stands for in [advance]. *)
Definition apply_direction (dir : string) (t : Tape) : Tape :=
  if String.eqb dir direction.right then move_right t
  else if String.eqb dir direction.left then move_left t
  else t.

(** [k] consecutive calls of [advance], each made in a state outside the
    accepting set and none raising. *)
Fixpoint advances (k : nat) (m : TuringMachine) : option TuringMachine :=
  match k with
  | O => Some m
  | S k' =>
      if accepting m then None
      else match advance m with
           | (m', Ok _) => advances k' m'
           | (_, Raise _) => None
           end
  end.

(** The configuration line of the transition a machine is about to take:
    its state, the symbol under the head, and the table's answer. *)
Definition transition_taken (m : TuringMachine) : option event :=
  match get_char (tape m) with
  | Ok c =>
      match _transition_fn m !! (current_state m, c) with
      | Some (next_state, output, dir) =>
          Some (PrintConfig (current_state m) c output next_state dir)
      | None => None
      end
  | Raise _ => None
  end.


(** ** Concrete machines used to instantiate the properties *)

(** A table entry with a direction value outside ['L'], ['R'], ['S']. *)
Definition unknown_direction_machine : TuringMachine :=
  mkTM (mkTape [None; Some "a"] 1 0 1) [0; 1] 0 (Some "a") [1] []
       {[ (0, Some "a") := (1, Some "b", "X") ]}.




(** A two-step machine: rewrite ['a'] to ['b'], move right, accept on the
    blank. *)
Definition rewrite_machine : TuringMachine :=
  mkTM (mkTape [Some "a"] 0 0 0) [0; 1] 0 (Some "a") [1] []
       (<[ (0, Some "a") := (0, Some "b", direction.right) ]>
          {[ (0, None) := (1, None, direction.stay) ]}).

(** The demo encrypt machine on a tape holding a character its table does
    not handle. *)
Definition unhandled_machine : TuringMachine :=
  mkTM (Tape_init (Some "H") None) [0; 1; 2] 0 (Some "H") [2] []
       (cipher_transitions 5).


(** ** Further notions used by the properties of the whole module *)

(** What every tape the constructor can produce satisfies, the empty one
    included: the bounds describe the list and the head index is not
    negative. *)
Definition tape_shape (t : Tape) : Prop :=
  _min_loc t = 0 /\
  _max_loc t = Z.of_nat (length (_list t)) - 1 /\
  0 <= _loc t.

(** The nested class [Tape.char_codes]: terminal escape sequences. *)
Module char_codes.
Definition RED : string := String "027" "[91m".
Definition BOLD : string := String "027" "[1m".
Definition UNDERLINE : string := String "027" "[4m".
Definition END : string := String "027" "[0m".
End char_codes.

(** [Tape.draw]: the text of each [print] call of [draw_tape], in order:
    one per cell, then the closing [print(' ', end='\r')]. *)
Definition draw_cell (loc : Z) (i : nat) (item : cell) : string :=
  let out :=
    match item with
    | Some s => (char_codes.UNDERLINE ++ s ++ char_codes.END)%string
    | None => (char_codes.UNDERLINE ++ " " ++ char_codes.END)%string
    end in
  if Z.of_nat i =? loc
  then (char_codes.RED ++ out ++ char_codes.END)%string
  else out.

Definition draw (t : Tape) : list string :=
  imap (draw_cell (_loc t)) (_list t) ++ [String " " (String "013" EmptyString)].

Definition is_print_config (e : event) : bool :=
  match e with PrintConfig _ _ _ _ _ => true | DrawTape _ _ => false end.

Definition is_draw_tape (e : event) : bool :=
  match e with PrintConfig _ _ _ _ _ => false | DrawTape _ _ => true end.

(** *** What the demo machine does to a text *)

Definition is_lowercase (a : ascii) : bool :=
  (ord "a"%char <=? ord a) && (ord a <=? ord "z"%char).

(** The characters the demo table has entries for. *)
Definition handled (a : ascii) : bool := is_lowercase a || Ascii.eqb a " "%char.

(** The character the machine leaves in place of [a]. *)
Definition cipher_symbol (shift : Z) (a : ascii) : ascii :=
  if is_lowercase a then cipher a shift else a.

Definition cipher_string (shift : Z) (s : string) : string :=
  String.string_of_list_ascii
    (map (cipher_symbol shift) (String.list_ascii_of_string s)).

Definition cellof (a : ascii) : cell := Some (str1 a).

(** The demo machine in state [q] on tape [t]. *)
Definition cipher_config (shift q : Z) (ci : cell) (t : Tape) : TuringMachine :=
  mkTM t [0; 1; 2] q ci [2] [] (cipher_transitions shift).

(** The tape while the head scans a text: the characters [done] lie to
    the left of the head, [rest] starts under it. *)
Definition scan_tape (done rest : list ascii) : Tape :=
  mkTape (map cellof (done ++ rest)) (Z.of_nat (length done)) 0
         (Z.of_nat (length (map cellof (done ++ rest))) - 1).

(** The tape once the head has stepped past the last character. *)
Definition end_tape (done : list ascii) : Tape :=
  mkTape (map cellof done ++ [None]) (Z.of_nat (length done)) 0
         (Z.of_nat (length (map cellof done ++ [None])) - 1).

Definition next_tape (done rest : list ascii) : Tape :=
  match rest with
  | [] => end_tape done
  | _ :: _ => scan_tape done rest
  end.

(** The tape with cells [l], head on index [i] and bounds describing [l]. *)
Definition tape_at (l : list cell) (i : nat) : Tape :=
  mkTape l (Z.of_nat i) 0 (Z.of_nat (length l) - 1).

(** * Properties *)

(** ** Evaluation checks of the embedding *)

Example get_string_demo :
  get_string (mkTape [Some "a"; None; Some "b"; None] 0 0 3) = "ab".
Proof. reflexivity. Qed.

Example move_right_demo :
  move_right (Tape_init (Some "a") None) = mkTape [Some "a"; None] 1 0 1.
Proof. reflexivity. Qed.

Example move_left_demo :
  move_left (Tape_init (Some "a") None) = mkTape [None; Some "a"] 0 0 1.
Proof. reflexivity. Qed.

Example empty_tape_demo :
  Tape_init None None = mkTape [] 0 0 (-1) /\
  Tape_init (Some "") (Some (-3)) = mkTape [] 0 0 (-1) /\
  Tape_init None (Some 2) = mkTape [None; None] 0 0 1.
Proof. repeat split. Qed.

(** ** The tape *)

Section TapeFacts.

Implicit Types (t : Tape) (l : list cell) (v c : cell).

Lemma py_index_inside n i :
  0 <= i < n -> py_index n i = Some (Z.to_nat i).
Proof.
  intros Hi. unfold py_index.
  destruct (Z.leb_spec 0 i); [|lia].
  destruct (Z.ltb_spec i n); [reflexivity|lia].
Qed.

Lemma py_index_bound n i k :
  0 <= n -> py_index n i = Some k -> (Z.of_nat k < n).
Proof.
  unfold py_index. intros Hn.
  destruct (Z.leb_spec 0 i), (Z.ltb_spec i n); simpl;
    try (intros [= <-]; lia);
    destruct (Z.leb_spec (- n) i), (Z.ltb_spec i 0); simpl;
    try discriminate; intros [= <-]; lia.
Qed.

Lemma py_getitem_inside l i :
  0 <= i < Z.of_nat (length l) ->
  exists c, l !! Z.to_nat i = Some c /\ py_getitem l i = Ok c.
Proof.
  intros Hi. unfold py_getitem. rewrite py_index_inside by exact Hi.
  destruct (lookup_lt_is_Some_2 l (Z.to_nat i)) as [c Hc]; [lia|].
  exists c. rewrite Hc. auto.
Qed.

Lemma py_setitem_inside l i v :
  0 <= i < Z.of_nat (length l) ->
  py_setitem l i v = Ok (<[Z.to_nat i := v]> l).
Proof.
  intros Hi. unfold py_setitem. now rewrite py_index_inside.
Qed.

(** Reading back the cell that [l[i] = v] has just written. *)
Lemma py_setitem_getitem l i v l' :
  py_setitem l i v = Ok l' -> py_getitem l' i = Ok v.
Proof.
  unfold py_setitem, py_getitem.
  destruct (py_index _ i) as [k|] eqn:Hk; [|discriminate].
  intros [= <-]. rewrite length_insert, Hk.
  apply py_index_bound in Hk; [|lia].
  rewrite list_lookup_insert_eq by lia. reflexivity.
Qed.

Lemma py_getitem_setitem l i c v :
  py_getitem l i = Ok c -> exists l', py_setitem l i v = Ok l'.
Proof.
  unfold py_setitem, py_getitem.
  destruct (py_index _ i); [eauto|discriminate].
Qed.

Lemma length_py_none_times_1 : length (py_none_times 1) = 1%nat.
Proof. reflexivity. Qed.

Lemma tape_wf_in_bounds t : tape_wf t -> head_in_bounds t.
Proof. unfold tape_wf, head_in_bounds. intros (? & ? & ?). lia. Qed.

Lemma move_left_wf t : tape_wf t -> tape_wf (move_left t).
Proof.
  unfold tape_wf, move_left. intros (Hmin & Hmax & Hloc).
  destruct (Z.eqb_spec (_loc t) (_min_loc t)) as [E|E]; simpl;
    unfold _get_max_loc; rewrite ?length_app; simpl; lia.
Qed.

Lemma move_right_wf t : tape_wf t -> tape_wf (move_right t).
Proof.
  unfold tape_wf, move_right. intros (Hmin & Hmax & Hloc).
  destruct (Z.eqb_spec (_loc t) (_max_loc t)) as [E|E]; simpl;
    unfold _get_max_loc; rewrite ?length_app; simpl; lia.
Qed.

Lemma set_char_wf t v :
  tape_wf t -> exists t', set_char v t = Ok t' /\ tape_wf t' /\
                          _loc t' = _loc t /\
                          length (_list t') = length (_list t).
Proof.
  intros (Hmin & Hmax & Hloc). unfold set_char.
  rewrite py_setitem_inside by lia.
  eexists; split; [reflexivity|].
  unfold tape_wf; simpl. rewrite length_insert. auto.
Qed.

Lemma get_char_wf t : tape_wf t -> exists c, get_char t = Ok c.
Proof.
  intros (Hmin & Hmax & Hloc). unfold get_char.
  destruct (py_getitem_inside (_list t) (_loc t)) as (c & _ & Hc); [lia|eauto].
Qed.

Lemma apply_op_wf op t :
  tape_wf t -> exists t', apply_op op t = Ok t' /\ tape_wf t'.
Proof.
  intros Hwf. destruct op as [[|]| |v]; simpl.
  - eauto using move_left_wf.
  - eauto using move_right_wf.
  - destruct (get_char_wf t Hwf) as [c ->]. eauto.
  - destruct (set_char_wf t v Hwf) as (t' & -> & ? & _). eauto.
Qed.

Lemma run_ops_wf ops : forall t,
  tape_wf t -> exists t', run_ops ops t = Ok t' /\ tape_wf t'.
Proof.
  induction ops as [|op ops IH]; intros t Hwf; simpl.
  - eauto.
  - destruct (apply_op_wf op t Hwf) as (t1 & -> & Hwf1). auto.
Qed.

(** The constructor establishes the invariant exactly when it allocates
    at least one cell. *)
Lemma Tape_init_wf initial_state start_size :
  _list (Tape_init initial_state start_size) <> [] ->
  tape_wf (Tape_init initial_state start_size).
Proof.
  unfold Tape_init, tape_wf. simpl. intros Hne.
  unfold _get_max_loc.
  destruct (if truthy_str initial_state then _ else _) as [|c l];
    [congruence|simpl; lia].
Qed.

Lemma Tape_init_nonempty initial_state start_size :
  _list (Tape_init initial_state start_size) <> [] <->
  (truthy_str initial_state = true \/
   (exists n, start_size = Some n /\ 0 < n)).
Proof.
  unfold Tape_init; simpl. split.
  - destruct (truthy_str initial_state) eqn:E; [auto|].
    destruct start_size as [n|]; simpl; [|done].
    destruct (Z.eqb_spec n 0); simpl; [done|].
    unfold py_none_times. intros H. right. exists n. split; [reflexivity|].
    destruct (Z.to_nat n) eqn:En; [done|lia].
  - intros [H|(n & -> & Hn)].
    + rewrite H. destruct initial_state as [s|]; [|done].
      destruct s; done.
    + destruct (truthy_str initial_state) eqn:E.
      * destruct initial_state as [s|]; [|done].
        destruct s; done.
      * simpl. destruct (Z.eqb_spec n 0); [lia|]. simpl.
        unfold py_none_times. destruct (Z.to_nat n) eqn:En; [lia|done].
Qed.

End TapeFacts.

(** *** Head bounds and failure freedom *)

(** C1, as stated, fails on the tape that [Tape('')] (or [Tape(None)])
    constructs: its list is empty, its head index 0 lies above
    [_max_loc = -1], a read raises [IndexError], and a [move_right] leaves
    the list empty with the head at index 1, where a read raises again. *)
Lemma empty_tape_breaks_bounds :
  Tape_init (Some "") None = mkTape [] 0 0 (-1) /\
  run_ops [GetChar] (Tape_init (Some "") None) = Raise IndexError /\
  move_right (Tape_init (Some "") None) = mkTape [] 1 0 (-1) /\
  run_ops [Move ToRight; GetChar] (Tape_init (Some "") None) = Raise IndexError.
Proof. repeat split. Qed.

(** C1, amended: for every tape the constructor produces with at least one
    cell, every finite sequence of [move_left], [move_right], [get_char]
    and [set_char] calls runs to its end without raising, and the head then
    lies within [[_min_loc, _max_loc]] and on a cell of the list.  The
    statement covers every prefix of a sequence, a prefix being a sequence
    itself. *)
Theorem tape_ops_never_fail initial_state start_size (ops : list tape_op) :
  _list (Tape_init initial_state start_size) <> [] ->
  ops_safe ops (Tape_init initial_state start_size).
Proof.
  intros Hne. apply Tape_init_wf in Hne.
  destruct (run_ops_wf ops _ Hne) as (t' & Hrun & Hwf).
  exists t'. split; [exact Hrun|]. now apply tape_wf_in_bounds.
Qed.

Lemma tape_ops_never_fail_witness :
  _list (Tape_init (Some "ab") None) <> [] /\
  ops_safe [Move ToLeft; SetChar (Some "x"); Move ToRight; Move ToRight;
            Move ToRight; GetChar; SetChar None; Move ToLeft]
           (Tape_init (Some "ab") None).
Proof.
  split; [discriminate|].
  apply (tape_ops_never_fail (Some "ab") None). discriminate.
Defined.

(** *** Write then read *)

(** C9, as stated, fails on the empty tape of [Tape('')]: the write itself
    raises [IndexError]. *)
Lemma empty_tape_set_char_raises :
  set_char (Some "x") (Tape_init (Some "") None) = Raise IndexError.
Proof. reflexivity. Qed.

(** C9, amended: on every tape whose head index lies on a cell of the
    list, [set_char(x)] succeeds and the [get_char()] that follows, with no
    move in between, returns [x]; [x] may be the blank [None]. *)
Theorem set_char_get_char (t : Tape) (x : cell) :
  0 <= _loc t < Z.of_nat (length (_list t)) ->
  exists t', set_char x t = Ok t' /\ get_char t' = Ok x /\ _loc t' = _loc t.
Proof.
  intros Hloc. unfold set_char, get_char.
  destruct (py_setitem (_list t) (_loc t) x) as [l'|e] eqn:Hset.
  - eexists; split; [reflexivity|]. simpl.
    split; [|reflexivity]. eapply py_setitem_getitem; eauto.
  - rewrite py_setitem_inside in Hset by exact Hloc. discriminate.
Qed.

Lemma set_char_get_char_witness :
  0 <= _loc (mkTape [Some "a"; None; Some "c"] 1 0 2)
     < Z.of_nat (length (_list (mkTape [Some "a"; None; Some "c"] 1 0 2))) /\
  exists t', set_char None (mkTape [Some "a"; None; Some "c"] 1 0 2) = Ok t' /\
             get_char t' = Ok None /\ _loc t' = 1.
Proof.
  split; [simpl; lia|].
  apply (set_char_get_char (mkTape [Some "a"; None; Some "c"] 1 0 2) None).
  simpl; lia.
Defined.

(** *** Growth *)

Lemma crosses_left_iff t : crosses ToLeft t = (_loc t =? _min_loc t).
Proof.
  unfold crosses.
  destruct (Z.leb_spec (_min_loc t) (_loc t)),
           (Z.ltb_spec (_loc t - 1) (_min_loc t)),
           (Z.eqb_spec (_loc t) (_min_loc t)); simpl; auto; lia.
Qed.

Lemma crosses_right_iff t : crosses ToRight t = (_loc t =? _max_loc t).
Proof.
  unfold crosses.
  destruct (Z.leb_spec (_loc t) (_max_loc t)),
           (Z.ltb_spec (_max_loc t) (_loc t + 1)),
           (Z.eqb_spec (_loc t) (_max_loc t)); simpl; auto; lia.
Qed.

(** One move: the list gains exactly one blank cell on the crossed side
    when the move crosses a boundary, and is untouched otherwise. *)
Lemma apply_move_list d t :
  _list (apply_move d t) =
    if crosses d t
    then match d with
         | ToLeft => None :: _list t
         | ToRight => _list t ++ [None]
         end
    else _list t.
Proof.
  destruct d; cbn [apply_move].
  - rewrite crosses_left_iff. unfold move_left.
    destruct (_loc t =? _min_loc t); reflexivity.
  - rewrite crosses_right_iff. unfold move_right.
    destruct (_loc t =? _max_loc t); reflexivity.
Qed.

Lemma crosses_would_leave_bounds d t :
  crosses d t = true -> would_leave_bounds d t = true.
Proof.
  unfold crosses, would_leave_bounds. destruct d;
    intros [H1 H2]%andb_prop; apply negb_true_iff, andb_false_iff; lia.
Qed.

Lemma apply_moves_length ds : forall t,
  length (_list (apply_moves ds t)) = (length (_list t) + crossings ds t)%nat.
Proof.
  induction ds as [|d ds IH]; intros t; simpl.
  - lia.
  - unfold apply_moves in *. rewrite IH, apply_move_list.
    destruct (crosses d t), d; simpl; rewrite ?length_app; simpl; lia.
Qed.

Lemma crossings_le ds : forall t, (crossings ds t <= length ds)%nat.
Proof.
  induction ds as [|d ds IH]; intros t; simpl; [lia|].
  specialize (IH (apply_move d t)). destruct (crosses d t); lia.
Qed.

(** C6: from a tape whose list has length [L], after any sequence of [N]
    moves the list has length [L] plus the number of boundary crossings of
    the sequence, which is at most [L + N]; a single move extends the list
    only when the head would otherwise leave the bounds, and then by
    exactly one blank cell on the crossed side. *)
Theorem moves_growth (t : Tape) (ds : list head_move) :
  length (_list (apply_moves ds t)) = (length (_list t) + crossings ds t)%nat /\
  (length (_list (apply_moves ds t)) <= length (_list t) + length ds)%nat /\
  (forall d t0,
     _list (apply_move d t0) =
       if crosses d t0
       then match d with
            | ToLeft => None :: _list t0
            | ToRight => _list t0 ++ [None]
            end
       else _list t0) /\
  (forall d t0, _list (apply_move d t0) <> _list t0 ->
                would_leave_bounds d t0 = true).
Proof.
  split; [apply apply_moves_length|].
  split; [rewrite apply_moves_length; pose proof (crossings_le ds t); lia|].
  split; [apply apply_move_list|].
  intros d t0 Hgrow. apply crosses_would_leave_bounds.
  rewrite apply_move_list in Hgrow. destruct (crosses d t0); [reflexivity|].
  congruence.
Qed.

(** *** Serialization *)

Lemma string_append_cons (a : ascii) (s1 s2 : string) :
  (String a s1 ++ s2 = String a (s1 ++ s2))%string.
Proof. reflexivity. Qed.

Lemma string_append_nil_r (s : string) : (s ++ "" = s)%string.
Proof.
  induction s as [|a s IH]; [reflexivity|].
  now rewrite string_append_cons, IH.
Qed.

Lemma string_app_assoc (a b c : string) :
  ((a ++ b) ++ c = a ++ (b ++ c))%string.
Proof.
  induction a as [|x a IH]; [reflexivity|].
  now rewrite !string_append_cons, IH.
Qed.

Lemma string_concat_cons (s : string) (l : list string) :
  String.concat "" (s :: l) = (s ++ String.concat "" l)%string.
Proof.
  destruct l as [|s' l]; simpl; [|reflexivity].
  now rewrite string_append_nil_r.
Qed.

Lemma get_string_nonblank_concat l loc mn mx :
  get_string (mkTape l loc mn mx) = nonblank_concat l.
Proof.
  unfold get_string, py_join; cbn [_list].
  induction l as [|[s|] l IH]; cbn [List.filter is_not_None nonblank_concat].
  - reflexivity.
  - rewrite map_cons, string_concat_cons. cbn [default]. f_equal. exact IH.
  - exact IH.
Qed.

Lemma nonblank_concat_app l1 l2 :
  nonblank_concat (l1 ++ l2) = (nonblank_concat l1 ++ nonblank_concat l2)%string.
Proof.
  induction l1 as [|[s|] l1 IH]; simpl; auto.
  now rewrite IH, string_app_assoc.
Qed.

(** C7: [get_string] is the concatenation of the non-blank symbols in
    storage order; it does not depend on the head or the bounds, a blank
    cell anywhere in the list contributes nothing, and the order of the
    remaining symbols is the order of the list. *)
Theorem get_string_omits_blanks (t : Tape) :
  get_string t = nonblank_concat (_list t) /\
  (forall l1 l2 loc mn mx,
     get_string (mkTape (l1 ++ None :: l2) loc mn mx) =
     get_string (mkTape (l1 ++ l2) loc mn mx)) /\
  (forall l1 l2 loc mn mx,
     get_string (mkTape (l1 ++ l2) loc mn mx) =
     (get_string (mkTape l1 loc mn mx) ++ get_string (mkTape l2 loc mn mx))%string) /\
  (forall (s : symbol) l loc mn mx,
     get_string (mkTape (Some s :: l) loc mn mx) =
     (s ++ get_string (mkTape l loc mn mx))%string).
Proof.
  split; [destruct t; apply get_string_nonblank_concat|].
  split; [|split].
  - intros. rewrite !get_string_nonblank_concat, !nonblank_concat_app.
    reflexivity.
  - intros. rewrite !get_string_nonblank_concat. apply nonblank_concat_app.
  - intros. rewrite !get_string_nonblank_concat. reflexivity.
Qed.

(** ** The machine: a single step *)

Section AdvanceFacts.

Implicit Types (m : TuringMachine) (c out : cell) (d : string).

Ltac unfold_advance :=
  unfold advance, bind, tape_get_char, tape_set_char, tape_move,
    transition_lookup, modify, gets, ret; cbn [tape current_state
    _transition_fn set_current_input set_current_state set_tape].

Lemma advance_read_raises m e :
  get_char (tape m) = Raise e -> advance m = (m, Raise e).
Proof. intros H. unfold_advance. now rewrite H. Qed.

Lemma advance_lookup_miss m c :
  get_char (tape m) = Ok c ->
  _transition_fn m !! (current_state m, c) = None ->
  advance m = (set_current_input c m, Raise (KeyError (current_state m, c))).
Proof. intros Hget Hmiss. unfold_advance. now rewrite Hget, Hmiss. Qed.

(** A read that succeeded makes the write at the same index succeed. *)
Lemma get_char_set_char_ok (t : Tape) c out :
  get_char t = Ok c ->
  exists t1, set_char out t = Ok t1 /\ _loc t1 = _loc t /\
             length (_list t1) = length (_list t).
Proof.
  unfold get_char, set_char, py_getitem, py_setitem.
  destruct (py_index _ (_loc t)) as [k|]; [|discriminate]. intros _.
  eexists; split; [reflexivity|]. simpl. now rewrite length_insert.
Qed.

Lemma advance_lookup_hit m c q' out d :
  get_char (tape m) = Ok c ->
  _transition_fn m !! (current_state m, c) = Some (q', out, d) ->
  exists t1,
    set_char out (tape m) = Ok t1 /\
    advance m =
      (mkTM (apply_direction d t1) (states m) q' c
            (_accepting_states m) (_rejecting_states m) (_transition_fn m),
       Ok tt).
Proof.
  intros Hget Hhit.
  destruct (get_char_set_char_ok (tape m) c out Hget) as (t1 & Hset & _).
  exists t1. split; [exact Hset|].
  unfold_advance. rewrite Hget, Hhit. cbn. rewrite Hset.
  unfold apply_direction.
  destruct (String.eqb d direction.right); [reflexivity|].
  destruct (String.eqb d direction.left); [reflexivity|].
  destruct (String.eqb d direction.stay); reflexivity.
Qed.

(** The three ways [advance] can end. *)
Lemma advance_cases m :
  (exists e, get_char (tape m) = Raise e /\ advance m = (m, Raise e)) \/
  (exists c, get_char (tape m) = Ok c /\
             _transition_fn m !! (current_state m, c) = None /\
             advance m = (set_current_input c m,
                          Raise (KeyError (current_state m, c)))) \/
  (exists c q' out d t1,
     get_char (tape m) = Ok c /\
     _transition_fn m !! (current_state m, c) = Some (q', out, d) /\
     set_char out (tape m) = Ok t1 /\
     advance m =
       (mkTM (apply_direction d t1) (states m) q' c
             (_accepting_states m) (_rejecting_states m) (_transition_fn m),
        Ok tt)).
Proof.
  destruct (get_char (tape m)) as [c|e] eqn:Hget.
  - right.
    destruct (_transition_fn m !! (current_state m, c)) as [[[q' out] d]|] eqn:Hl.
    + right. destruct (advance_lookup_hit m c q' out d Hget Hl) as (t1 & ? & ?).
      exists c, q', out, d, t1. auto.
    + left. exists c. auto using advance_lookup_miss.
  - left. exists e. auto using advance_read_raises.
Qed.

Lemma advance_raise_frame m m' e :
  advance m = (m', Raise e) ->
  current_state m' = current_state m /\ tape m' = tape m /\
  _transition_fn m' = _transition_fn m /\
  _accepting_states m' = _accepting_states m.
Proof.
  destruct (advance_cases m) as
    [(e0 & _ & ->)|[(c & _ & _ & ->)|(c & q' & out & d & t1 & _ & _ & _ & ->)]];
    intros [= <- <-]; auto.
Qed.

Lemma advance_ok_frame m m' :
  advance m = (m', Ok tt) ->
  _transition_fn m' = _transition_fn m /\
  _accepting_states m' = _accepting_states m /\
  _rejecting_states m' = _rejecting_states m /\
  states m' = states m.
Proof.
  destruct (advance_cases m) as
    [(e0 & _ & ->)|[(c & _ & _ & ->)|(c & q' & out & d & t1 & _ & _ & _ & ->)]];
    intros [= <-]; auto.
Qed.

End AdvanceFacts.

(** C3: [advance] reads the head symbol; when the pair (state, symbol) has
    no table entry it raises [KeyError] for that pair; whenever it raises,
    the control state and the tape (cells and head) are those it started
    with; and when the lookup succeeds it sets the state, writes the output
    symbol at the head and then moves the head per the direction. *)
Theorem advance_fails_atomically (m : TuringMachine) :
  (forall c,
     get_char (tape m) = Ok c ->
     _transition_fn m !! (current_state m, c) = None ->
     snd (advance m) = Raise (KeyError (current_state m, c))) /\
  (forall m' e,
     advance m = (m', Raise e) ->
     current_state m' = current_state m /\ tape m' = tape m) /\
  (forall c q' out d,
     get_char (tape m) = Ok c ->
     _transition_fn m !! (current_state m, c) = Some (q', out, d) ->
     exists t1,
       set_char out (tape m) = Ok t1 /\
       advance m =
         (mkTM (apply_direction d t1) (states m) q' c
               (_accepting_states m) (_rejecting_states m) (_transition_fn m),
          Ok tt)).
Proof.
  split; [|split].
  - intros c Hget Hmiss. now rewrite (advance_lookup_miss m c Hget Hmiss).
  - intros m' e H. apply advance_raise_frame in H. tauto.
  - intros c q' out d. apply advance_lookup_hit.
Qed.

Lemma advance_fails_atomically_witness :
  cipher_machine "H" 5 = Ok unhandled_machine /\
  snd (advance unhandled_machine) = Raise (KeyError (0, Some "H")) /\
  current_state (fst (advance unhandled_machine)) = 0 /\
  tape (fst (advance unhandled_machine)) = tape unhandled_machine.
Proof.
  split; [reflexivity|]. split.
  - apply (proj1 (advance_fails_atomically unhandled_machine) (Some "H"));
      vm_compute; reflexivity.
  - apply (proj1 (proj2 (advance_fails_atomically unhandled_machine))
             (fst (advance unhandled_machine)) (KeyError (0, Some "H"))).
    vm_compute; reflexivity.
Defined.

(** C10: a table entry whose direction is none of ['L'], ['R'], ['S'] makes
    [advance] complete without raising; the state update and the write are
    applied, the head index and the list length stay as they were, and the
    step is the one a machine with the same entry and direction ['S']
    takes. *)
Theorem advance_unknown_direction_stays
    (m : TuringMachine) (c out : cell) (q' : Z) (d : string) :
  get_char (tape m) = Ok c ->
  _transition_fn m !! (current_state m, c) = Some (q', out, d) ->
  d <> direction.right -> d <> direction.left -> d <> direction.stay ->
  exists t1,
    set_char out (tape m) = Ok t1 /\
    advance m =
      (mkTM t1 (states m) q' c
            (_accepting_states m) (_rejecting_states m) (_transition_fn m),
       Ok tt) /\
    _loc t1 = _loc (tape m) /\
    length (_list t1) = length (_list (tape m)) /\
    (forall m_stay,
       tape m_stay = tape m ->
       current_state m_stay = current_state m ->
       _transition_fn m_stay !! (current_state m, c) =
         Some (q', out, direction.stay) ->
       snd (advance m_stay) = Ok tt /\
       tape (fst (advance m_stay)) = t1 /\
       current_state (fst (advance m_stay)) = q' /\
       current_input (fst (advance m_stay)) = c).
Proof.
  intros Hget Hhit HR HL HS.
  destruct (advance_lookup_hit m c q' out d Hget Hhit) as (t1 & Hset & Hadv).
  destruct (get_char_set_char_ok (tape m) c out Hget) as (t1' & Hset' & Hloc & Hlen).
  assert (t1' = t1) as -> by congruence.
  exists t1. split; [exact Hset|].
  assert (apply_direction d t1 = t1) as Hd.
  { unfold apply_direction.
    destruct (String.eqb_spec d direction.right); [contradiction|].
    destruct (String.eqb_spec d direction.left); [contradiction|]. reflexivity. }
  rewrite Hd in Hadv.
  split; [exact Hadv|]. split; [exact Hloc|]. split; [exact Hlen|].
  intros m_stay Ht Hq Hl.
  rewrite <- Ht in Hget, Hset. rewrite <- Hq in Hl.
  destruct (advance_lookup_hit m_stay c q' out direction.stay Hget Hl)
    as (t2 & Hset2 & ->).
  assert (t2 = t1) as -> by congruence.
  repeat split.
Qed.

Lemma advance_unknown_direction_stays_witness :
  get_char (tape unknown_direction_machine) = Ok (Some "a") /\
  exists t1,
    set_char (Some "b") (tape unknown_direction_machine) = Ok t1 /\
    advance unknown_direction_machine =
      (mkTM t1 [0; 1] 1 (Some "a") [1] []
            (_transition_fn unknown_direction_machine), Ok tt) /\
    _loc t1 = 1 /\
    length (_list t1) = 2%nat /\
    (forall m_stay,
       tape m_stay = tape unknown_direction_machine ->
       current_state m_stay = current_state unknown_direction_machine ->
       _transition_fn m_stay !! (current_state unknown_direction_machine, Some "a") =
         Some (1, Some "b", direction.stay) ->
       snd (advance m_stay) = Ok tt /\
       tape (fst (advance m_stay)) = t1 /\
       current_state (fst (advance m_stay)) = 1 /\
       current_input (fst (advance m_stay)) = Some "a").
Proof.
  split; [reflexivity|].
  apply (advance_unknown_direction_stays
           unknown_direction_machine (Some "a") (Some "b") 1 "X");
    [reflexivity | vm_compute; reflexivity
     | discriminate | discriminate | discriminate].
Defined.

(** ** The machine: the run loop *)

Section RunFacts.

Implicit Types (m : TuringMachine) (w : world) (draw pc : bool).

Lemma run_report_machine draw pc w w' r :
  run_report draw pc w = (w', r) -> machine w' = machine w.
Proof.
  unfold run_report, bind, gets, ret, on_machine, transition_lookup,
    tape_draw, print, modify.
  destruct pc; cbn.
  - destruct (_transition_fn (machine w) !! _) as [[[q out] d]|]; cbn;
      intros [= <- _]; reflexivity.
  - destruct draw; cbn; intros [= <- _]; reflexivity.
Qed.

Lemma run_report_quiet draw w :
  exists evs, run_report draw false w =
              (mkWorld (machine w) (stdout w ++ evs), Ok draw).
Proof.
  unfold run_report, bind, gets, ret, tape_draw, print, modify.
  destruct draw; cbn.
  - eexists; reflexivity.
  - exists []. rewrite app_nil_r. now destruct w.
Qed.

Lemma run_body_unfold draw pc w :
  run_body draw pc w =
    match advance (machine w) with
    | (m1, Ok _) => run_report draw pc (mkWorld m1 (stdout w))
    | (m1, Raise e) => (mkWorld m1 (stdout w), Raise e)
    end.
Proof.
  unfold run_body, bind, on_machine.
  destruct (advance (machine w)) as [m1 [[]|e]]; reflexivity.
Qed.

(** An iteration of the loop that completes has made exactly one call of
    [advance] on the machine. *)
Lemma run_body_advance draw pc w w' draw' :
  run_body draw pc w = (w', Ok draw') ->
  advance (machine w) = (machine w', Ok tt).
Proof.
  rewrite run_body_unfold.
  destruct (advance (machine w)) as [m1 [[]|e]]; [|discriminate].
  intros H. apply run_report_machine in H. simpl in H. now rewrite H.
Qed.

Lemma run_body_quiet draw w m1 :
  advance (machine w) = (m1, Ok tt) ->
  exists out', run_body draw false w = (mkWorld m1 out', Ok draw).
Proof.
  intros H. rewrite run_body_unfold, H.
  destruct (run_report_quiet draw (mkWorld m1 (stdout w))) as [evs ->].
  eexists; reflexivity.
Qed.

Lemma run_returned_inv fuel : forall draw pc w w' s,
  run fuel draw pc w = (w', Returned s) ->
  exists k, (k < fuel)%nat /\
            advances k (machine w) = Some (machine w') /\
            accepting (machine w') = true /\
            s = get_string (tape (machine w')).
Proof.
  induction fuel as [|fuel IH]; intros draw pc w w' s; simpl; [discriminate|].
  destruct (accepting (machine w)) eqn:Hacc.
  - intros [= <- <-]. exists O. repeat split; [lia|exact Hacc].
  - destruct (run_body draw pc w) as [w1 [draw1|e]] eqn:Hbody; [|discriminate].
    intros Hrun. apply IH in Hrun as (k & Hk & Hadv & Hfin & Hs).
    exists (S k). split; [lia|]. split; [|auto].
    simpl. rewrite Hacc, (run_body_advance _ _ _ _ _ Hbody). exact Hadv.
Qed.

Lemma run_reaches_accept k : forall fuel draw m m' out,
  advances k m = Some m' ->
  accepting m' = true ->
  (k < fuel)%nat ->
  exists out',
    run fuel draw false (mkWorld m out) =
      (mkWorld m' out', Returned (get_string (tape m'))).
Proof.
  induction k as [|k IH]; intros fuel draw m m' out Hadv Hacc Hk;
    (destruct fuel as [|fuel]; [lia|]); simpl in *.
  - injection Hadv as <-. rewrite Hacc. eauto.
  - destruct (accepting m) eqn:Hm; [discriminate|].
    destruct (advance m) as [m1 [[]|e]] eqn:Hstep; [|discriminate].
    destruct (run_body_quiet draw (mkWorld m out) m1 Hstep) as [out1 ->].
    apply IH; [assumption|assumption|lia].
Qed.

Lemma run_accepting fuel draw pc w :
  accepting (machine w) = true ->
  run (S fuel) draw pc w = (w, Returned (get_string (tape (machine w)))).
Proof. intros H. simpl. now rewrite H. Qed.

(** More fuel does not change a run that returned. *)
Lemma run_fuel_mono fuel : forall draw pc w w' s extra,
  run fuel draw pc w = (w', Returned s) ->
  run (fuel + extra) draw pc w = (w', Returned s).
Proof.
  induction fuel as [|fuel IH]; intros draw pc w w' s extra; simpl;
    [discriminate|].
  destruct (accepting (machine w)); [auto|].
  destruct (run_body draw pc w) as [w1 [draw1|e]]; [apply IH|discriminate].
Qed.


End RunFacts.

(** X22: The loop of [run], flag by flag.  For every flag: a machine that
    starts in an accepting state is returned unchanged, with nothing
    printed and its initial tape serialized; every run that returns has
    made some number [k] of successful [advance] calls, all from
    non-accepting states, and returns [get_string] of the tape reached;
    and every completed iteration is exactly one call of [advance].  With
    [print_configs] off: whenever [k] such calls lead to an accepting
    state, a run with more than [k] units of fuel returns the
    serialization of the tape reached. *)
Theorem run_returns_tape_string (w : world) (fuel : nat) (draw pc : bool) :
  (accepting (machine w) = true ->
   run (S fuel) draw pc w = (w, Returned (get_string (tape (machine w))))) /\
  (forall w' s,
     run fuel draw pc w = (w', Returned s) ->
     exists k, (k < fuel)%nat /\
               advances k (machine w) = Some (machine w') /\
               accepting (machine w') = true /\
               s = get_string (tape (machine w'))) /\
  (forall k m',
     advances k (machine w) = Some m' ->
     accepting m' = true ->
     (k < fuel)%nat ->
     exists out',
       run fuel draw false w =
         (mkWorld m' out', Returned (get_string (tape m')))) /\
  (forall w' draw',
     run_body draw pc w = (w', Ok draw') ->
     advance (machine w) = (machine w', Ok tt)).
Proof.
  split; [apply run_accepting|].
  split; [apply run_returned_inv|].
  split; [|apply run_body_advance].
  intros k m' Hadv Hacc Hk. destruct w as [m out].
  eapply run_reaches_accept; eauto.
Qed.

Lemma run_returns_tape_string_witness :
  advances 2 rewrite_machine =
    Some (mkTM (mkTape [Some "b"; None] 1 0 1) [0; 1] 1 None [1] []
               (_transition_fn rewrite_machine)) /\
  exists out',
    run 3 true false (mkWorld rewrite_machine []) =
      (mkWorld (mkTM (mkTape [Some "b"; None] 1 0 1) [0; 1] 1 None [1] []
                     (_transition_fn rewrite_machine)) out',
       Returned "b").
Proof.
  split; [vm_compute; reflexivity|].
  apply (proj1 (proj2 (proj2
           (run_returns_tape_string (mkWorld rewrite_machine []) 3 true false)))
           2%nat);
    [vm_compute; reflexivity | reflexivity | lia].
Defined.

(** C2 on the two-step rewrite machine (tape ["a"], accepting set [[1]]):
    two calls of [advance] from non-accepting states reach the accepting
    state 1 with the tape serializing to ["b"], and with [print_configs]
    off [run] returns ["b"].  With [print_configs] on the same run does not
    return: after the step that enters the accepting state, and before the
    loop condition is read again, the table is looked up for
    [(1, None)], the accepting state and the symbol just read, which has
    no entry, and [run] ends in [KeyError]. *)
Theorem run_print_configs_raises_on_accept :
  accepting rewrite_machine = false /\
  (exists m',
     advances 2 rewrite_machine = Some m' /\
     accepting m' = true /\
     get_string (tape m') = "b") /\
  snd (run 5 false false (mkWorld rewrite_machine [])) = Returned "b" /\
  snd (run 5 true false (mkWorld rewrite_machine [])) = Returned "b" /\
  snd (run 5 false true (mkWorld rewrite_machine [])) =
    Raised (KeyError (1, None)) /\
  snd (run 5 true true (mkWorld rewrite_machine [])) =
    Raised (KeyError (1, None)) /\
  stdout (fst (run 5 false true (mkWorld rewrite_machine []))) =
    [PrintConfig 0 (Some "a") (Some "b") 0 direction.right].
Proof.
  split; [reflexivity|]. split.
  - eexists. split; [vm_compute; reflexivity|]. split; reflexivity.
  - repeat split; vm_compute; reflexivity.
Qed.

(** *** The rejecting set *)









(** ** The demo driver *)

Lemma run_cipher_fuel_mono fuel extra text shift draw pc s :
  run_cipher fuel text shift draw pc = Returned s ->
  run_cipher (fuel + extra) text shift draw pc = Returned s.
Proof.
  unfold run_cipher. destruct (cipher_machine text shift) as [T|e]; [|auto].
  destruct (run fuel draw pc (mkWorld T [])) as [w' o] eqn:Hrun.
  cbn [snd]. intros ->.
  now rewrite (run_fuel_mono fuel draw pc _ _ _ extra Hrun).
Qed.

Lemma ord_chr z : 0 <= z < 256 -> ord (chr z) = z.
Proof.
  intros Hz. unfold ord, chr. rewrite Ascii.N_ascii_embedding; lia.
Qed.

Lemma chr_ord a : chr (ord a) = a.
Proof. unfold ord, chr. rewrite N2Z.id. apply Ascii.ascii_N_embedding. Qed.

(** [cipher] maps every character to a lowercase letter, by rotation
    within the 26 letters. *)
Lemma ord_cipher c shift :
  ord (cipher c shift) = ord "a"%char + (ord c - ord "a"%char + shift) mod 26.
Proof.
  unfold cipher. change (Z.of_nat (String.length ascii_lowercase)) with 26.
  change (ord "a"%char) with 97.
  pose proof (Z.mod_pos_bound (ord c - 97 + shift) 26 eq_refl).
  rewrite ord_chr; lia.
Qed.

(** Shifting back undoes the shift on lowercase letters, for any shift. *)
Lemma cipher_inverse c shift :
  ord "a"%char <= ord c <= ord "z"%char ->
  cipher (cipher c shift) (- shift) = c.
Proof.
  intros Hc. rewrite <- (chr_ord c) at 2. unfold cipher at 1.
  rewrite ord_cipher. f_equal.
  change (Z.of_nat (String.length ascii_lowercase)) with 26.
  change (ord "a"%char) with 97 in *. change (ord "z"%char) with 122 in *.
  replace (97 + (ord c - 97 + shift) mod 26 - 97 + - shift)
    with ((ord c - 97 + shift) mod 26 - shift) by lia.
  rewrite Zminus_mod_idemp_l.
  replace (ord c - 97 + shift - shift) with (ord c - 97) by lia.
  rewrite Z.mod_small; lia.
Qed.

Example main_needs_fuel : main 13 "hello world" 5 = OutOfFuel.
Proof. vm_compute. reflexivity. Qed.

Example main_empty_plaintext : main 100 "" 5 = Raised IndexError.
Proof. vm_compute. reflexivity. Qed.

Example main_unhandled_character :
  main 100 "Hi" 5 = Raised (KeyError (0, Some "H")).
Proof. vm_compute. reflexivity. Qed.

(** C8: the driver, on ["hello world"] with shift 5, encrypts to
    ["mjqqt btwqi"] (the space unchanged, [w] wrapping round to [b]) and
    decrypting that with the mirrored table gives back ["hello world"];
    14 evaluations of the loop condition suffice for each run. *)
Theorem cipher_round_trip (fuel : nat) :
  (14 <= fuel)%nat ->
  main fuel "hello world" 5 = Returned ("mjqqt btwqi", "hello world").
Proof.
  intros Hfuel. replace fuel with (14 + (fuel - 14))%nat by lia.
  unfold main.
  rewrite (run_cipher_fuel_mono 14 _ "hello world" 5 true false "mjqqt btwqi")
    by (vm_compute; reflexivity).
  rewrite (run_cipher_fuel_mono 14 _ "mjqqt btwqi" (-5) true false "hello world")
    by (vm_compute; reflexivity).
  reflexivity.
Qed.

Lemma cipher_round_trip_witness :
  (14 <= 40)%nat /\
  main 40 "hello world" 5 = Returned ("mjqqt btwqi", "hello world").
Proof. split; [lia|]. apply (cipher_round_trip 40). lia. Defined.

(** ** Printing configurations *)

(** C5 on the demo encrypt machine for the tape ["a"], run with
    [print_configs] on.  The first step takes the transition
    [(0, 'a') -> (1, 'a', 'S')], yet the line printed after it is
    [(1, a, f, 1, R)]: the state is the one after the step and the last
    three fields are the table's entry for that state and the symbol read.
    After the last step the same lookup, on [(2, None)], has no entry and
    the run ends in [KeyError] instead of returning ["f"] as it does with
    [print_configs] off.  The [draw] argument is overridden as claimed. *)
Theorem print_configs_reports_other_transition :
  exists T,
    cipher_machine "a" 5 = Ok T /\
    transition_taken T =
      Some (PrintConfig 0 (Some "a") (Some "a") 1 direction.stay) /\
    stdout (fst (run 1 false true (mkWorld T []))) =
      [PrintConfig 1 (Some "a") (Some "f") 1 direction.right] /\
    stdout (fst (run 1 true true (mkWorld T []))) =
      [PrintConfig 1 (Some "a") (Some "f") 1 direction.right] /\
    snd (run 10 false true (mkWorld T [])) = Raised (KeyError (2, None)) /\
    snd (run 10 false false (mkWorld T [])) = Returned "f".
Proof.
  eexists. split; [reflexivity|]. repeat split; vm_compute; reflexivity.
Qed.

(** The printed line is that of the transition taken exactly when the step
    left the control state as it was. *)
Lemma run_report_print_configs draw (m m1 : TuringMachine) out e :
  advance m = (m1, Ok tt) ->
  transition_taken m = Some e ->
  current_state m1 = current_state m ->
  run_report draw true (mkWorld m1 out) = (mkWorld m1 (out ++ [e]), Ok false).
Proof.
  intros Hadv Htaken Hsame. unfold transition_taken in Htaken.
  destruct (advance_cases m) as
    [(e0 & _ & H)|[(c & _ & _ & H)|(c & q' & o & d & t1 & Hget & Hl & _ & H)]];
    rewrite H in Hadv; try discriminate.
  injection Hadv as <-. cbn in Hsame. subst q'.
  rewrite Hget, Hl in Htaken. injection Htaken as <-.
  unfold run_report, bind, gets, ret, on_machine, transition_lookup,
    print, modify. cbn. rewrite Hl. reflexivity.
Qed.

(** * Further properties of the module *)

(** ** The tape: moves, writes and the constructor *)

Section TapeAlgebra.

Implicit Types (t : Tape) (l : list cell) (v c : cell).

Lemma get_string_list t : get_string t = nonblank_concat (_list t).
Proof. destruct t. apply get_string_nonblank_concat. Qed.

Lemma nonblank_concat_snoc_None l :
  nonblank_concat (l ++ [None]) = nonblank_concat l.
Proof. rewrite nonblank_concat_app. simpl. apply string_append_nil_r. Qed.

Lemma apply_move_get_string d t : get_string (apply_move d t) = get_string t.
Proof.
  rewrite !get_string_list, apply_move_list.
  destruct (crosses d t); [|reflexivity].
  destruct d; [reflexivity|apply nonblank_concat_snoc_None].
Qed.

(** X1: Moving the head never changes what the tape serializes to. *)
Theorem moves_keep_get_string (ds : list head_move) (t : Tape) :
  get_string (apply_moves ds t) = get_string t.
Proof.
  revert t. induction ds as [|d ds IH]; intros t; [reflexivity|].
  unfold apply_moves in *. simpl. now rewrite IH, apply_move_get_string.
Qed.

(** With a head index that is not negative, a read is positional: it
    returns the cell at that index and raises when there is none. *)
Lemma get_char_nonneg t :
  0 <= _loc t ->
  get_char t =
    match _list t !! Z.to_nat (_loc t) with
    | Some c => Ok c
    | None => Raise IndexError
    end.
Proof.
  intros Hloc. unfold get_char, py_getitem, py_index.
  destruct (Z.leb_spec 0 (_loc t)); [|lia].
  destruct (Z.ltb_spec (_loc t) (Z.of_nat (length (_list t)))); cbn.
  - reflexivity.
  - destruct (Z.ltb_spec (_loc t) 0); [lia|]. rewrite andb_false_r.
    rewrite lookup_ge_None_2 by lia. reflexivity.
Qed.

Lemma set_char_nonneg t v :
  0 <= _loc t ->
  set_char v t =
    if _loc t <? Z.of_nat (length (_list t))
    then Ok (mkTape (<[Z.to_nat (_loc t) := v]> (_list t))
                    (_loc t) (_min_loc t) (_max_loc t))
    else Raise IndexError.
Proof.
  intros Hloc. unfold set_char, py_setitem, py_index.
  destruct (Z.leb_spec 0 (_loc t)); [|lia].
  destruct (Z.ltb_spec (_loc t) (Z.of_nat (length (_list t)))); cbn.
  - reflexivity.
  - destruct (Z.ltb_spec (_loc t) 0); [lia|]. now rewrite andb_false_r.
Qed.

Lemma move_right_cases t :
  move_right t =
    if _loc t =? _max_loc t
    then mkTape (_list t ++ [None]) (_loc t + 1) (_min_loc t)
                (Z.of_nat (length (_list t ++ [None])) - 1)
    else mkTape (_list t) (_loc t + 1) (_min_loc t) (_max_loc t).
Proof. unfold move_right. destruct (_loc t =? _max_loc t); reflexivity. Qed.

Lemma move_left_cases t :
  move_left t =
    if _loc t =? _min_loc t
    then mkTape (None :: _list t) (_loc t + 1 - 1) (_min_loc t)
                (Z.of_nat (length (None :: _list t)) - 1)
    else mkTape (_list t) (_loc t - 1) (_min_loc t) (_max_loc t).
Proof. unfold move_left. destruct (_loc t =? _min_loc t); reflexivity. Qed.

(** X2: A step right followed by a step left, or left followed by right,
    brings the head back over the symbol it started on; the tape keeps its
    invariant, and the first order also keeps the head index. *)
Theorem move_there_and_back (t : Tape) :
  tape_wf t ->
  get_char (move_left (move_right t)) = get_char t /\
  get_char (move_right (move_left t)) = get_char t /\
  _loc (move_left (move_right t)) = _loc t /\
  tape_wf (move_left (move_right t)) /\
  tape_wf (move_right (move_left t)).
Proof.
  intros Hwf.
  assert (Hrl : tape_wf (move_left (move_right t)))
    by auto using move_left_wf, move_right_wf.
  assert (Hlr : tape_wf (move_right (move_left t)))
    by auto using move_left_wf, move_right_wf.
  assert (Hback : _loc (move_left (move_right t)) = _loc t /\
                  _list (move_left (move_right t)) !! Z.to_nat (_loc t) =
                  _list t !! Z.to_nat (_loc t)).
  { destruct Hwf as (Hmin & Hmax & Hloc).
    rewrite (move_right_cases t).
    destruct (Z.eqb_spec (_loc t) (_max_loc t)) as [E|E];
      rewrite move_left_cases; cbn [_loc _min_loc _list _max_loc];
      (destruct (Z.eqb_spec (_loc t + 1) (_min_loc t)); [lia|]);
      cbn [_loc _list]; (split; [lia|]); [|reflexivity].
    apply lookup_app_l. lia. }
  assert (Hforth : _list (move_right (move_left t))
                     !! Z.to_nat (_loc (move_right (move_left t))) =
                   _list t !! Z.to_nat (_loc t)).
  { destruct Hwf as (Hmin & Hmax & Hloc).
    rewrite (move_left_cases t).
    destruct (Z.eqb_spec (_loc t) (_min_loc t)) as [E|E];
      rewrite move_right_cases; cbn [_loc _min_loc _list _max_loc length].
    - match goal with
      | |- context [?a =? ?b] => destruct (Z.eqb_spec a b); [unfold cell, symbol in *; lia|]
      end.
      cbn [_loc _list].
      replace (Z.to_nat (_loc t + 1 - 1 + 1)) with (S (Z.to_nat (_loc t))) by lia.
      reflexivity.
    - destruct (Z.eqb_spec (_loc t - 1) (_max_loc t)); [lia|].
      cbn [_loc _list]. now replace (_loc t - 1 + 1) with (_loc t) by lia. }
  destruct Hback as (Hloc' & Hcell).
  split; [|split; [|split; [|split]]]; try assumption.
  - rewrite (get_char_nonneg (move_left (move_right t))) by apply Hrl.
    rewrite (get_char_nonneg t) by apply Hwf.
    now rewrite Hloc', Hcell.
  - rewrite (get_char_nonneg (move_right (move_left t))) by apply Hlr.
    rewrite (get_char_nonneg t) by apply Hwf.
    now rewrite Hforth.
Qed.

Lemma move_there_and_back_witness :
  tape_wf (mkTape [Some "a"; Some "b"] 1 0 1) /\
  get_char (move_left (move_right (mkTape [Some "a"; Some "b"] 1 0 1))) =
    Ok (Some "b") /\
  get_char (move_right (move_left (mkTape [Some "a"; Some "b"] 0 0 1))) =
    Ok (Some "a").
Proof.
  split; [unfold tape_wf; simpl; lia|]. split.
  - apply (proj1 (move_there_and_back (mkTape [Some "a"; Some "b"] 1 0 1)
                    ltac:(unfold tape_wf; simpl; lia))).
  - apply (proj1 (proj2 (move_there_and_back (mkTape [Some "a"; Some "b"] 0 0 1)
                    ltac:(unfold tape_wf; simpl; lia)))).
Defined.

End TapeAlgebra.

Section TapeWrites.

Implicit Types (t : Tape) (l : list cell) (v c : cell).

(** X3: A write that succeeds changes the cell under the head and nothing
    else: every other cell, the length of the list, the head index and the
    bounds are as before. *)
Theorem set_char_frame (t t' : Tape) (v : cell) :
  0 <= _loc t ->
  set_char v t = Ok t' ->
  _list t' !! Z.to_nat (_loc t) = Some v /\
  (forall i, i <> Z.to_nat (_loc t) -> _list t' !! i = _list t !! i) /\
  length (_list t') = length (_list t) /\
  _loc t' = _loc t /\ _min_loc t' = _min_loc t /\ _max_loc t' = _max_loc t.
Proof.
  intros Hloc. rewrite set_char_nonneg by exact Hloc.
  destruct (Z.ltb_spec (_loc t) (Z.of_nat (length (_list t)))); [|discriminate].
  intros [= <-]. cbn. repeat split.
  - apply list_lookup_insert_eq. lia.
  - intros i Hi. apply list_lookup_insert_ne. congruence.
  - apply length_insert.
Qed.

Lemma set_char_frame_witness :
  0 <= _loc (mkTape [Some "a"; Some "b"; None] 1 0 2) /\
  set_char (Some "z") (mkTape [Some "a"; Some "b"; None] 1 0 2) =
    Ok (mkTape [Some "a"; Some "z"; None] 1 0 2) /\
  _list (mkTape [Some "a"; Some "z"; None] 1 0 2) !! 1%nat = Some (Some "z").
Proof.
  split; [simpl; lia|]. split; [reflexivity|].
  apply (proj1 (set_char_frame (mkTape [Some "a"; Some "b"; None] 1 0 2)
                  (mkTape [Some "a"; Some "z"; None] 1 0 2) (Some "z")
                  ltac:(simpl; lia) eq_refl)).
Defined.

(** X4: Of two writes with no move in between only the second leaves a trace,
    and writing back the symbol just read leaves the tape as it was. *)
Theorem set_char_overwrites (t t1 : Tape) (v1 v2 : cell) :
  set_char v1 t = Ok t1 ->
  set_char v2 t1 = set_char v2 t /\
  (forall c, get_char t = Ok c -> set_char c t = Ok t).
Proof.
  unfold set_char, get_char, py_setitem, py_getitem.
  destruct (py_index (Z.of_nat (length (_list t))) (_loc t)) as [k|] eqn:Hk;
    [|discriminate].
  intros [= <-]. cbn [_list _loc _min_loc _max_loc]. split.
  - rewrite length_insert, Hk. now rewrite list_insert_insert_eq.
  - intros c. destruct (_list t !! k) as [c'|] eqn:Hc; [|discriminate].
    intros [= <-]. rewrite list_insert_id by exact Hc. now destruct t.
Qed.

Lemma set_char_overwrites_witness :
  set_char (Some "x") (mkTape [Some "a"; None] 0 0 1) =
    Ok (mkTape [Some "x"; None] 0 0 1) /\
  set_char None (mkTape [Some "x"; None] 0 0 1) =
    set_char None (mkTape [Some "a"; None] 0 0 1).
Proof.
  split; [reflexivity|].
  apply (proj1 (set_char_overwrites (mkTape [Some "a"; None] 0 0 1)
                  (mkTape [Some "x"; None] 0 0 1) (Some "x") None eq_refl)).
Defined.

End TapeWrites.

Section TapeConstruction.

Implicit Types (t : Tape) (l : list cell) (v c : cell).

Lemma nonblank_concat_py_list_of_str (s : string) :
  nonblank_concat (py_list_of_str s) = s.
Proof.
  induction s as [|a s IH]; [reflexivity|].
  change (py_list_of_str (String a s))
    with (Some (String a EmptyString) :: py_list_of_str s).
  cbn [nonblank_concat]. rewrite IH. reflexivity.
Qed.

Lemma nonblank_concat_replicate_None (n : nat) :
  nonblank_concat (replicate n None) = "".
Proof. induction n as [|n IH]; [reflexivity|exact IH]. Qed.

(** X5: Serializing a freshly constructed tape gives back the initial string,
    whatever [start_size] is; without an initial string it gives the empty
    string.  When the initial string is not empty, [start_size] is ignored
    and the head reads its first character. *)
Theorem Tape_init_get_string (initial_state : option string)
    (start_size : option Z) :
  get_string (Tape_init initial_state start_size) = default "" initial_state /\
  (forall a s,
     initial_state = Some (String a s) ->
     Tape_init initial_state start_size = Tape_init initial_state None /\
     get_char (Tape_init initial_state start_size) =
       Ok (Some (String a EmptyString))).
Proof.
  split.
  - rewrite get_string_list. unfold Tape_init. cbn [_list].
    destruct initial_state as [s|]; cbn [truthy_str default].
    + destruct s as [|a s]; cbn [String.eqb negb].
      * destruct (truthy_int start_size); [|reflexivity].
        apply nonblank_concat_replicate_None.
      * apply nonblank_concat_py_list_of_str.
    + destruct (truthy_int start_size); [|reflexivity].
      apply nonblank_concat_replicate_None.
  - intros a s ->. split; reflexivity.
Qed.

(** X6: A tape constructed from a capacity alone holds that many blank cells:
    it serializes to the empty string and the head reads a blank. *)
Theorem Tape_init_blank (initial_state : option string) (n : Z) :
  truthy_str initial_state = false ->
  0 < n ->
  _list (Tape_init initial_state (Some n)) = replicate (Z.to_nat n) None /\
  get_char (Tape_init initial_state (Some n)) = Ok None /\
  get_string (Tape_init initial_state (Some n)) = "" /\
  tape_wf (Tape_init initial_state (Some n)).
Proof.
  intros Hfalsy Hn.
  assert (Hl : _list (Tape_init initial_state (Some n)) =
               replicate (Z.to_nat n) None).
  { unfold Tape_init. cbn [_list]. rewrite Hfalsy. cbn [truthy_int default].
    destruct (Z.eqb_spec n 0); [lia|]. reflexivity. }
  assert (Hwf : tape_wf (Tape_init initial_state (Some n))).
  { apply Tape_init_wf. rewrite Hl.
    destruct (Z.to_nat n) eqn:E; [lia|discriminate]. }
  split; [exact Hl|]. split; [|split; [|exact Hwf]].
  - rewrite get_char_nonneg by apply Hwf. rewrite Hl.
    change (_loc (Tape_init initial_state (Some n))) with 0.
    destruct (Z.to_nat n) eqn:E; [lia|reflexivity].
  - rewrite get_string_list, Hl. apply nonblank_concat_replicate_None.
Qed.

Lemma Tape_init_blank_witness :
  truthy_str (Some "") = false /\ 0 < 3 /\
  _list (Tape_init (Some "") (Some 3)) = [None; None; None] /\
  get_char (Tape_init (Some "") (Some 3)) = Ok None.
Proof.
  split; [reflexivity|]. split; [lia|].
  pose proof (Tape_init_blank (Some "") 3 eq_refl ltac:(lia)) as (H1 & H2 & _).
  split; [exact H1|exact H2].
Defined.

(** *** The shape every reachable tape has *)

Lemma Tape_init_shape initial_state start_size :
  tape_shape (Tape_init initial_state start_size).
Proof. unfold tape_shape, Tape_init, _get_max_loc. cbn. lia. Qed.

Lemma apply_op_shape op t t' :
  tape_shape t -> apply_op op t = Ok t' -> tape_shape t'.
Proof.
  unfold tape_shape. intros (Hmin & Hmax & Hloc).
  destruct op as [[|]| |v]; cbn [apply_op apply_move].
  - intros [= <-]. rewrite move_left_cases.
    destruct (Z.eqb_spec (_loc t) (_min_loc t));
      cbn [_list _loc _min_loc _max_loc length];
      unfold cell, symbol in *; lia.
  - intros [= <-]. rewrite move_right_cases.
    destruct (Z.eqb_spec (_loc t) (_max_loc t));
      cbn [_list _loc _min_loc _max_loc]; rewrite ?length_app;
      cbn [length]; unfold cell, symbol in *; lia.
  - destruct (get_char t); [|discriminate]. intros [= <-]. auto.
  - rewrite set_char_nonneg by exact Hloc.
    destruct (_loc t <? _); [|discriminate]. intros [= <-]. cbn.
    rewrite length_insert. auto.
Qed.

(** X7: Whatever the constructor arguments and whatever calls have completed,
    the lower bound is 0, the upper bound is the last index of the list and
    the head index is not negative; so a read never wraps round to the end
    of the list: it returns the cell at the head index or raises. *)
Theorem reachable_tape_shape initial_state start_size
    (ops : list tape_op) (t' : Tape) :
  run_ops ops (Tape_init initial_state start_size) = Ok t' ->
  tape_shape t' /\
  get_char t' =
    match _list t' !! Z.to_nat (_loc t') with
    | Some c => Ok c
    | None => Raise IndexError
    end.
Proof.
  intros Hrun.
  assert (Hshape : tape_shape t').
  { pose proof (Tape_init_shape initial_state start_size) as H0.
    revert Hrun H0. generalize (Tape_init initial_state start_size).
    induction ops as [|op ops IH]; intros t; cbn [run_ops].
    - intros [= <-]. auto.
    - destruct (apply_op op t) as [t1|e] eqn:Hop; [|discriminate].
      intros Hrun Hs. eapply IH; eauto using apply_op_shape. }
  split; [exact Hshape|]. apply get_char_nonneg, Hshape.
Qed.

Lemma reachable_tape_shape_witness :
  run_ops [Move ToRight; Move ToRight; Move ToLeft] (Tape_init None None) =
    Ok (mkTape [] 1 0 (-1)) /\
  tape_shape (mkTape [] 1 0 (-1)) /\
  get_char (mkTape [] 1 0 (-1)) = Raise IndexError.
Proof.
  split; [reflexivity|].
  apply (reachable_tape_shape None None
           [Move ToRight; Move ToRight; Move ToLeft] (mkTape [] 1 0 (-1))).
  reflexivity.
Defined.

(** *** The tape constructed with no cell *)

Lemma move_right_empty (k : Z) :
  0 <= k -> move_right (mkTape [] k 0 (-1)) = mkTape [] (k + 1) 0 (-1).
Proof.
  intros Hk. rewrite move_right_cases. cbn [_loc _max_loc].
  destruct (Z.eqb_spec k (-1)); [lia|reflexivity].
Qed.

Lemma moves_right_empty (n : nat) : forall k,
  0 <= k ->
  apply_moves (replicate n ToRight) (mkTape [] k 0 (-1)) =
    mkTape [] (k + Z.of_nat n) 0 (-1).
Proof.
  induction n as [|n IH]; intros k Hk.
  - cbn. now rewrite Z.add_0_r.
  - unfold apply_moves in *. cbn [replicate foldl apply_move].
    rewrite move_right_empty by exact Hk. rewrite IH by lia. f_equal. lia.
Qed.

(** X8: A tape constructed with no cell is never repaired by moving right: after
    any number of [move_right] calls the list is still empty, the head index
    is that number, and every read and write raises [IndexError].  One
    [move_left] from the start gives a tape of one blank cell that satisfies
    the invariant. *)
Theorem empty_tape_moves initial_state start_size (n : nat) :
  _list (Tape_init initial_state start_size) = [] ->
  apply_moves (replicate n ToRight) (Tape_init initial_state start_size) =
    mkTape [] (Z.of_nat n) 0 (-1) /\
  get_char (apply_moves (replicate n ToRight)
                        (Tape_init initial_state start_size)) =
    Raise IndexError /\
  (forall v,
     set_char v (apply_moves (replicate n ToRight)
                             (Tape_init initial_state start_size)) =
     Raise IndexError) /\
  move_left (Tape_init initial_state start_size) = mkTape [None] 0 0 0 /\
  tape_wf (move_left (Tape_init initial_state start_size)).
Proof.
  intros Hempty.
  assert (H0 : Tape_init initial_state start_size = mkTape [] 0 0 (-1)).
  { unfold Tape_init in *. cbn [_list] in Hempty. now rewrite Hempty. }
  rewrite H0, moves_right_empty by lia. rewrite Z.add_0_l.
  split; [reflexivity|]. split; [|split; [|split]].
  - rewrite get_char_nonneg by (cbn; lia). reflexivity.
  - intros v. rewrite set_char_nonneg by (cbn; lia). cbn [_loc _list length].
    destruct (Z.ltb_spec (Z.of_nat n) (Z.of_nat 0)); [lia|reflexivity].
  - reflexivity.
  - change (move_left (mkTape [] 0 0 (-1))) with (mkTape [None] 0 0 0).
    unfold tape_wf. cbn [_list _loc _min_loc _max_loc length]. lia.
Qed.

Lemma empty_tape_moves_witness :
  _list (Tape_init (Some "") (Some (-2))) = [] /\
  apply_moves (replicate 3 ToRight) (Tape_init (Some "") (Some (-2))) =
    mkTape [] 3 0 (-1).
Proof.
  split; [reflexivity|].
  apply (proj1 (empty_tape_moves (Some "") (Some (-2)) 3 eq_refl)).
Defined.

(** *** Growth by any count *)

(** X9: [_expand_left] and [_expand_right] by a non-negative count keep the
    invariant, the symbol under the head and the serialization, and add
    exactly that many cells. *)
Theorem expand_preserves (n : Z) (t : Tape) :
  0 <= n ->
  tape_wf t ->
  tape_wf (_expand_left n t) /\ tape_wf (_expand_right n t) /\
  get_char (_expand_left n t) = get_char t /\
  get_char (_expand_right n t) = get_char t /\
  get_string (_expand_left n t) = get_string t /\
  get_string (_expand_right n t) = get_string t /\
  length (_list (_expand_left n t)) = (Z.to_nat n + length (_list t))%nat /\
  length (_list (_expand_right n t)) = (length (_list t) + Z.to_nat n)%nat.
Proof.
  intros Hn (Hmin & Hmax & Hloc).
  assert (Hlen : length (py_none_times n) = Z.to_nat n)
    by apply length_replicate.
  assert (HL : tape_wf (_expand_left n t)).
  { unfold tape_wf, _expand_left, _get_max_loc. cbn.
    rewrite length_app, Hlen. lia. }
  assert (HR : tape_wf (_expand_right n t)).
  { unfold tape_wf, _expand_right, _get_max_loc. cbn.
    rewrite length_app, Hlen. lia. }
  split; [exact HL|]. split; [exact HR|].
  split; [|split; [|split; [|split; [|split]]]].
  - rewrite (get_char_nonneg (_expand_left n t)) by apply HL.
    rewrite (get_char_nonneg t) by lia. cbn [_expand_left _list _loc].
    rewrite lookup_app_r by (rewrite Hlen; lia).
    rewrite Hlen. now replace (Z.to_nat (_loc t + n) - Z.to_nat n)%nat
      with (Z.to_nat (_loc t)) by lia.
  - rewrite (get_char_nonneg (_expand_right n t)) by apply HR.
    rewrite (get_char_nonneg t) by lia. cbn [_expand_right _list _loc].
    now rewrite lookup_app_l by lia.
  - rewrite !get_string_list. cbn [_expand_left _list].
    rewrite nonblank_concat_app.
    unfold py_none_times. now rewrite nonblank_concat_replicate_None.
  - rewrite !get_string_list. cbn [_expand_right _list].
    rewrite nonblank_concat_app.
    unfold py_none_times. rewrite nonblank_concat_replicate_None.
    apply string_append_nil_r.
  - cbn [_expand_left _list]. now rewrite length_app, Hlen.
  - cbn [_expand_right _list]. now rewrite length_app, Hlen.
Qed.

Lemma expand_preserves_witness :
  0 <= 3 /\ tape_wf (mkTape [Some "a"; Some "b"] 1 0 1) /\
  get_char (_expand_left 3 (mkTape [Some "a"; Some "b"] 1 0 1)) =
    get_char (mkTape [Some "a"; Some "b"] 1 0 1).
Proof.
  split; [lia|]. split; [unfold tape_wf; simpl; lia|].
  apply (proj1 (proj2 (proj2
           (expand_preserves 3 (mkTape [Some "a"; Some "b"] 1 0 1)
              ltac:(lia) ltac:(unfold tape_wf; simpl; lia))))).
Defined.

End TapeConstruction.

(** ** The machine: what a run keeps, raises and prints *)

Section RunInvariants.

Implicit Types (m : TuringMachine) (w : world) (draw pc : bool).

Lemma apply_direction_wf d (t : Tape) :
  tape_wf t -> tape_wf (apply_direction d t).
Proof.
  intros Hwf. unfold apply_direction.
  destruct (String.eqb d direction.right); [now apply move_right_wf|].
  destruct (String.eqb d direction.left); [now apply move_left_wf|assumption].
Qed.

Lemma advance_wf m m' r :
  tape_wf (tape m) ->
  advance m = (m', r) ->
  tape_wf (tape m') /\
  _transition_fn m' = _transition_fn m /\
  (forall e, r = Raise e ->
     exists key, e = KeyError key /\ _transition_fn m !! key = None).
Proof.
  intros Hwf.
  destruct (advance_cases m) as
    [(e0 & Hget & ->)|[(c & _ & Hmiss & ->)
                      |(c & q' & out & d & t1 & _ & _ & Hset & ->)]];
    intros [= <- <-].
  - destruct (get_char_wf (tape m) Hwf) as [c Hc]. congruence.
  - cbn. split; [exact Hwf|]. split; [reflexivity|].
    intros e [= <-]. eauto.
  - cbn. split; [|split; [reflexivity|discriminate]].
    apply apply_direction_wf.
    destruct (set_char_wf (tape m) out Hwf) as (t1' & Hset' & Hwf1 & _).
    congruence.
Qed.

Lemma run_report_cases draw pc w :
  (exists evs draw',
     run_report draw pc w = (mkWorld (machine w) (stdout w ++ evs), Ok draw') /\
     draw' = (if pc then false else draw) /\
     forallb (if pc then is_print_config else is_draw_tape) evs = true /\
     length evs = (if pc then 1 else if draw then 1 else 0)%nat) \/
  (exists key,
     pc = true /\
     run_report draw pc w = (w, Raise (KeyError key)) /\
     _transition_fn (machine w) !! key = None).
Proof.
  unfold run_report, bind, gets, ret, on_machine, transition_lookup,
    tape_draw, print, modify.
  destruct pc; cbn.
  - destruct (_transition_fn (machine w) !! _) as [[[q out] d]|] eqn:Hl; cbn.
    + left. eexists [_], false. repeat split.
    + right. eexists. split; [reflexivity|]. split; [|exact Hl]. now destruct w.
  - left. destruct draw.
    + eexists [_], true. repeat split.
    + exists [], false. rewrite app_nil_r. destruct w. repeat split.
Qed.

Lemma run_body_wf draw pc w w' r :
  tape_wf (tape (machine w)) ->
  run_body draw pc w = (w', r) ->
  tape_wf (tape (machine w')) /\
  _transition_fn (machine w') = _transition_fn (machine w) /\
  (forall e, r = Raise e ->
     exists key, e = KeyError key /\
                 _transition_fn (machine w) !! key = None).
Proof.
  intros Hwf. rewrite run_body_unfold.
  destruct (advance (machine w)) as [m1 r1] eqn:Hadv.
  destruct (advance_wf _ _ _ Hwf Hadv) as (Hwf1 & Htr & Hraise).
  destruct r1 as [[]|e1].
  - destruct (run_report_cases draw pc (mkWorld m1 (stdout w)))
      as [(evs & d' & -> & _)|(key & _ & -> & Hmiss)]; intros [= <- <-]; cbn.
    + split; [exact Hwf1|]. split; [exact Htr|discriminate].
    + split; [exact Hwf1|]. split; [exact Htr|].
      intros e [= <-]. exists key. split; [reflexivity|].
      cbn in Hmiss. now rewrite <- Htr.
  - intros [= <- <-]. cbn. split; [exact Hwf1|]. split; [exact Htr|].
    intros e [= <-]. apply Hraise. reflexivity.
Qed.

(** X10: From a tape that satisfies the invariant a run never raises
    [IndexError]: whatever the flags and the fuel, the only exception is a
    [KeyError], and its key has no entry in the machine's table; the tape
    it leaves still satisfies the invariant and the table is the one the
    machine was constructed with. *)
Theorem run_raises_only_key_errors (fuel : nat) (draw pc : bool) (w w' : world)
    (o : outcome string) :
  tape_wf (tape (machine w)) ->
  run fuel draw pc w = (w', o) ->
  tape_wf (tape (machine w')) /\
  _transition_fn (machine w') = _transition_fn (machine w) /\
  (forall e, o = Raised e ->
     exists key, e = KeyError key /\
                 _transition_fn (machine w) !! key = None).
Proof.
  revert draw w. induction fuel as [|fuel IH]; intros draw w Hwf; cbn [run].
  - intros [= <- <-]. split; [exact Hwf|]. split; [reflexivity|discriminate].
  - destruct (accepting (machine w)).
    + intros [= <- <-]. split; [exact Hwf|].
      split; [reflexivity|discriminate].
    + destruct (run_body draw pc w) as [w1 r1] eqn:Hbody.
      destruct (run_body_wf _ _ _ _ _ Hwf Hbody) as (Hwf1 & Htr & Hraise).
      destruct r1 as [draw1|e1].
      * intros Hrun. destruct (IH _ _ Hwf1 Hrun) as (Hwf' & Htr' & Hraise').
        split; [exact Hwf'|]. split; [congruence|].
        intros e He. destruct (Hraise' e He) as (key & -> & Hmiss).
        exists key. split; [reflexivity|]. now rewrite <- Htr.
      * intros [= <- <-]. split; [exact Hwf1|]. split; [exact Htr|].
        intros e [= <-]. apply Hraise. reflexivity.
Qed.

Lemma unhandled_machine_wf : tape_wf (tape unhandled_machine).
Proof. apply (Tape_init_wf (Some "H") None). discriminate. Qed.

Lemma run_raises_only_key_errors_witness :
  tape_wf (tape unhandled_machine) /\
  snd (run 5 true true (mkWorld unhandled_machine [])) =
    Raised (KeyError (0, Some "H")) /\
  exists key, KeyError (0, Some "H") = KeyError key /\
              _transition_fn unhandled_machine !! key = None.
Proof.
  split; [exact unhandled_machine_wf|].
  split; [vm_compute; reflexivity|].
  apply (proj2 (proj2
           (run_raises_only_key_errors 5 true true
              (mkWorld unhandled_machine [])
              (fst (run 5 true true (mkWorld unhandled_machine [])))
              (snd (run 5 true true (mkWorld unhandled_machine [])))
              unhandled_machine_wf
              ltac:(now destruct (run 5 true true (mkWorld unhandled_machine [])))))
           (KeyError (0, Some "H"))).
  vm_compute; reflexivity.
Defined.

(** *** Fields a run never touches *)

Lemma advance_frame m :
  states (fst (advance m)) = states m /\
  _accepting_states (fst (advance m)) = _accepting_states m /\
  _rejecting_states (fst (advance m)) = _rejecting_states m /\
  _transition_fn (fst (advance m)) = _transition_fn m.
Proof.
  destruct (advance_cases m) as
    [(e0 & _ & ->)|[(c & _ & _ & ->)|(c & q' & out & d & t1 & _ & _ & _ & ->)]];
    cbn; auto.
Qed.

Lemma run_body_frame draw pc w :
  states (machine (fst (run_body draw pc w))) = states (machine w) /\
  _accepting_states (machine (fst (run_body draw pc w))) =
    _accepting_states (machine w) /\
  _rejecting_states (machine (fst (run_body draw pc w))) =
    _rejecting_states (machine w) /\
  _transition_fn (machine (fst (run_body draw pc w))) =
    _transition_fn (machine w).
Proof.
  rewrite run_body_unfold. pose proof (advance_frame (machine w)) as Hf.
  destruct (advance (machine w)) as [m1 [[]|e]]; cbn [fst] in Hf; [|exact Hf].
  destruct (run_report draw pc (mkWorld m1 (stdout w))) as [w2 r] eqn:Hrep.
  apply run_report_machine in Hrep. cbn [fst machine] in *. now rewrite Hrep.
Qed.

(** X11: A run changes the tape, the current state and the cached input only:
    the state list, the accepting and rejecting sets and the transition
    table are, at the end, those the machine was constructed with. *)
Theorem run_keeps_program (fuel : nat) (draw pc : bool) (w : world) :
  states (machine (fst (run fuel draw pc w))) = states (machine w) /\
  _accepting_states (machine (fst (run fuel draw pc w))) =
    _accepting_states (machine w) /\
  _rejecting_states (machine (fst (run fuel draw pc w))) =
    _rejecting_states (machine w) /\
  _transition_fn (machine (fst (run fuel draw pc w))) =
    _transition_fn (machine w).
Proof.
  revert draw w. induction fuel as [|fuel IH]; intros draw w; cbn [run].
  - auto.
  - destruct (accepting (machine w)); [auto|].
    pose proof (run_body_frame draw pc w) as Hf.
    destruct (run_body draw pc w) as [w1 [draw1|e]]; cbn [fst] in *.
    + destruct (IH draw1 w1) as (H1 & H2 & H3 & H4).
      destruct Hf as (F1 & F2 & F3 & F4). repeat split; congruence.
    + exact Hf.
Qed.

End RunInvariants.

Section RunOutput.

Implicit Types (m : TuringMachine) (w : world) (draw pc : bool).

Lemma run_output_returned fuel pc : forall draw w w' s,
  run fuel draw pc w = (w', Returned s) ->
  exists evs k,
    stdout w' = stdout w ++ evs /\
    advances k (machine w) = Some (machine w') /\
    length evs = (if pc || draw then k else O).
Proof.
  induction fuel as [|fuel IH]; intros draw w w' s; cbn [run]; [discriminate|].
  destruct (accepting (machine w)) eqn:Hacc.
  - intros [= <- <-]. exists [], O. rewrite app_nil_r.
    repeat split. now destruct (pc || draw).
  - rewrite run_body_unfold.
    destruct (advance (machine w)) as [m1 [[]|e]] eqn:Hadv; [|discriminate].
    destruct (run_report_cases draw pc (mkWorld m1 (stdout w)))
      as [(evs1 & d' & -> & -> & _ & Hlen)|(key & _ & -> & _)]; [|discriminate].
    intros Hrun. apply IH in Hrun as (evs2 & k & Hout & Hk & Hlen2).
    cbn [stdout machine] in *.
    exists (evs1 ++ evs2), (S k). split; [now rewrite Hout, app_assoc|].
    split; [cbn [advances]; now rewrite Hacc, Hadv|].
    rewrite length_app, Hlen, Hlen2. destruct pc, draw; reflexivity.
Qed.

Lemma run_output_kinds fuel pc : forall draw w,
  exists evs,
    stdout (fst (run fuel draw pc w)) = stdout w ++ evs /\
    forallb (if pc then is_print_config else is_draw_tape) evs = true /\
    (pc = false -> draw = false -> evs = []).
Proof.
  induction fuel as [|fuel IH]; intros draw w; cbn [run].
  - exists []. now rewrite app_nil_r.
  - destruct (accepting (machine w)); [exists []; now rewrite app_nil_r|].
    rewrite run_body_unfold.
    destruct (advance (machine w)) as [m1 [[]|e]];
      [|exists []; now rewrite app_nil_r].
    destruct (run_report_cases draw pc (mkWorld m1 (stdout w)))
      as [(evs1 & d' & -> & -> & Hkind & Hlen)|(key & _ & -> & _)];
      [|exists []; now rewrite app_nil_r].
    destruct (IH (if pc then false else draw)
                 (mkWorld m1 (stdout (mkWorld m1 (stdout w)) ++ evs1)))
      as (evs2 & Hout & Hkind2 & Hquiet).
    cbn [stdout machine] in *.
    exists (evs1 ++ evs2). split; [now rewrite Hout, app_assoc|].
    split; [now rewrite forallb_app, Hkind, Hkind2|].
    intros -> ->. rewrite (Hquiet eq_refl eq_refl).
    destruct evs1; [reflexivity|discriminate].
Qed.

(** X12: What a run prints: nothing when both flags are off; only drawings
    when [draw] alone is on; only configuration lines when [print_configs]
    is on, whatever [draw] is.  A run that returns with a flag on has
    printed exactly one item per call of [advance]. *)
Theorem run_output (fuel : nat) (draw pc : bool) (w : world) :
  stdout (fst (run fuel false false w)) = stdout w /\
  (exists evs,
     stdout (fst (run fuel true false w)) = stdout w ++ evs /\
     forallb is_draw_tape evs = true) /\
  (exists evs,
     stdout (fst (run fuel draw true w)) = stdout w ++ evs /\
     forallb is_print_config evs = true) /\
  (forall w' s,
     run fuel draw pc w = (w', Returned s) ->
     exists evs k,
       stdout w' = stdout w ++ evs /\
       advances k (machine w) = Some (machine w') /\
       length evs = (if pc || draw then k else O)).
Proof.
  split; [|split; [|split]].
  - destruct (run_output_kinds fuel false false w) as (evs & -> & _ & Hq).
    rewrite (Hq eq_refl eq_refl). apply app_nil_r.
  - destruct (run_output_kinds fuel false true w) as (evs & H1 & H2 & _). eauto.
  - destruct (run_output_kinds fuel true draw w) as (evs & H1 & H2 & _). eauto.
  - apply run_output_returned.
Qed.

(** X13: The line [print_configs] prints after a step that succeeded is the
    table's entry for the state after the step and the symbol the step
    read; when there is no such entry the run raises [KeyError] for that
    pair.  After a step that left the control state as it was, the line is
    that of the transition just taken. *)
Theorem print_configs_line (draw : bool) (w : world) (m1 : TuringMachine) :
  advance (machine w) = (m1, Ok tt) ->
  get_char (tape (machine w)) = Ok (current_input m1) /\
  run_body draw true w =
    match _transition_fn m1 !! (current_state m1, current_input m1) with
    | Some (next_state, output, dir) =>
        (mkWorld m1 (stdout w ++
                     [PrintConfig (current_state m1) (current_input m1)
                                  output next_state dir]),
         Ok false)
    | None =>
        (mkWorld m1 (stdout w),
         Raise (KeyError (current_state m1, current_input m1)))
    end /\
  (current_state m1 = current_state (machine w) ->
   exists e, transition_taken (machine w) = Some e /\
             run_body draw true w = (mkWorld m1 (stdout w ++ [e]), Ok false)).
Proof.
  intros Hadv.
  assert (Hbody : run_body draw true w =
    match _transition_fn m1 !! (current_state m1, current_input m1) with
    | Some (next_state, output, dir) =>
        (mkWorld m1 (stdout w ++
                     [PrintConfig (current_state m1) (current_input m1)
                                  output next_state dir]),
         Ok false)
    | None =>
        (mkWorld m1 (stdout w),
         Raise (KeyError (current_state m1, current_input m1)))
    end).
  { rewrite run_body_unfold, Hadv.
    unfold run_report, bind, gets, ret, on_machine, transition_lookup,
      print, modify. cbn.
    destruct (_transition_fn m1 !! _) as [[[q out] d]|]; reflexivity. }
  destruct (advance_cases (machine w)) as
    [(e0 & _ & H)|[(c & _ & _ & H)|(c & q' & o & d & t1 & Hget & Hl & _ & H)]];
    rewrite H in Hadv; try discriminate.
  injection Hadv as <-. cbn [current_input current_state] in *.
  split; [exact Hget|]. split; [exact Hbody|].
  intros ->. unfold transition_taken. rewrite Hget, Hl.
  eexists. split; [reflexivity|]. rewrite Hbody.
  cbn [_transition_fn]. rewrite Hl. reflexivity.
Qed.

Lemma print_configs_line_witness :
  advance rewrite_machine =
    (mkTM (mkTape [Some "b"; None] 1 0 1) [0; 1] 0 (Some "a") [1] []
          (_transition_fn rewrite_machine), Ok tt) /\
  exists e,
    transition_taken rewrite_machine = Some e /\
    run_body false true (mkWorld rewrite_machine []) =
      (mkWorld (mkTM (mkTape [Some "b"; None] 1 0 1) [0; 1] 0 (Some "a") [1] []
                     (_transition_fn rewrite_machine)) ([] ++ [e]), Ok false).
Proof.
  split; [vm_compute; reflexivity|].
  apply (proj2 (proj2
           (print_configs_line false (mkWorld rewrite_machine []) _
              ltac:(vm_compute; reflexivity)))).
  reflexivity.
Defined.

(** *** Constructing a machine *)

(** X14: [TuringMachine.__init__] reads the head once: on a tape that satisfies
    the invariant it succeeds and caches the symbol under the head; on a
    tape with no cell it raises [IndexError], wherever the head is.  So the
    driver, given an empty plaintext, ends in [IndexError] before any step,
    for every shift. *)
Theorem TuringMachine_init_reads_head (t : Tape) (q : Z)
    (sts acc rej : list Z) (tr : gmap (Z * cell) transition) :
  (tape_wf t ->
   exists c, get_char t = Ok c /\
             TuringMachine_init t q sts acc rej tr =
               Ok (mkTM t sts q c acc rej tr)) /\
  (_list t = [] -> TuringMachine_init t q sts acc rej tr = Raise IndexError) /\
  (forall fuel shift, main fuel "" shift = Raised IndexError).
Proof.
  split; [|split].
  - intros Hwf. destruct (get_char_wf t Hwf) as [c Hc].
    exists c. split; [exact Hc|]. unfold TuringMachine_init. now rewrite Hc.
  - intros Hl. unfold TuringMachine_init, get_char, py_getitem.
    rewrite Hl. now destruct (py_index _ _).
  - intros fuel shift. reflexivity.
Qed.

End RunOutput.

(** ** The demo: cipher, table and runs for every text and shift *)

Section CipherFacts.

Lemma is_lowercase_ord a :
  is_lowercase a = true <-> ord "a"%char <= ord a <= ord "z"%char.
Proof. unfold is_lowercase. rewrite andb_true_iff, !Z.leb_le. tauto. Qed.

Lemma cipher_is_lowercase c shift : is_lowercase (cipher c shift) = true.
Proof.
  apply is_lowercase_ord. rewrite ord_cipher.
  change (ord "a"%char) with 97. change (ord "z"%char) with 122.
  pose proof (Z.mod_pos_bound (ord c - 97 + shift) 26 eq_refl). lia.
Qed.

Lemma cipher_compose c s1 s2 : cipher (cipher c s1) s2 = cipher c (s1 + s2).
Proof.
  unfold cipher at 1. rewrite ord_cipher. unfold cipher. f_equal. f_equal.
  change (Z.of_nat (String.length ascii_lowercase)) with 26.
  replace (ord "a"%char + (ord c - ord "a"%char + s1) mod 26 - ord "a"%char + s2)
    with ((ord c - ord "a"%char + s1) mod 26 + s2) by lia.
  rewrite Zplus_mod_idemp_l. f_equal. lia.
Qed.

Lemma cipher_zero c : is_lowercase c = true -> cipher c 0 = c.
Proof.
  intros Hc%is_lowercase_ord. rewrite <- (chr_ord c) at 2. unfold cipher.
  change (Z.of_nat (String.length ascii_lowercase)) with 26.
  change (ord "a"%char) with 97 in *. change (ord "z"%char) with 122 in *.
  f_equal. rewrite Z.add_0_r, Z.mod_small; lia.
Qed.

(** X15: [cipher] rotates within the 26 lowercase letters: its result is always
    a lowercase letter, two shifts compose by addition, a shift of 26 is no
    shift, and on a lowercase letter a shift of 0 changes nothing and the
    opposite shift undoes a shift. *)
Theorem cipher_rotation (c : ascii) (s1 s2 : Z) :
  is_lowercase (cipher c s1) = true /\
  cipher (cipher c s1) s2 = cipher c (s1 + s2) /\
  cipher c (s1 + 26) = cipher c s1 /\
  (is_lowercase c = true ->
   cipher c 0 = c /\ cipher (cipher c s1) (- s1) = c).
Proof.
  split; [apply cipher_is_lowercase|]. split; [apply cipher_compose|].
  split.
  - unfold cipher. f_equal. f_equal.
    change (Z.of_nat (String.length ascii_lowercase)) with 26.
    replace (ord c - ord "a"%char + (s1 + 26))
      with (ord c - ord "a"%char + s1 + 1 * 26) by lia.
    apply Z_mod_plus_full.
  - intros Hc. split; [now apply cipher_zero|].
    apply cipher_inverse. now apply is_lowercase_ord.
Qed.

End CipherFacts.

Section TableFacts.

Variable shift : Z.

(** The entries of the demo table for a one-character symbol, in the two
    states a run visits before it accepts. *)
Lemma cipher_table_lookup (a : ascii) :
  cipher_transitions shift !! (0, cellof a) =
    (if is_lowercase a then Some (1, cellof a, direction.stay)
     else if Ascii.eqb a " "%char then Some (0, cellof a, direction.right)
     else None) /\
  cipher_transitions shift !! (1, cellof a) =
    (if is_lowercase a then Some (1, cellof (cipher a shift), direction.right)
     else if Ascii.eqb a " "%char then Some (1, cellof a, direction.right)
     else None).
Proof.
  destruct a as [[] [] [] [] [] [] [] []]; vm_compute; split; reflexivity.
Qed.

Lemma cipher_table_accepting_row (a : ascii) :
  cipher_transitions shift !! (2, cellof a) =
    (if Ascii.eqb a " "%char then Some (2, cellof a, direction.right)
     else None).
Proof.
  destruct a as [[] [] [] [] [] [] [] []]; vm_compute; reflexivity.
Qed.

Lemma cipher_table_blank :
  cipher_transitions shift !! (0, None) = None /\
  cipher_transitions shift !! (1, None) = Some (2, None, direction.stay) /\
  cipher_transitions shift !! (2, None) = None.
Proof. vm_compute. repeat split. Qed.

End TableFacts.

(** X16: The demo table, for every shift and every one-character symbol: in
    state 0 a lowercase letter leads to state 1 without writing anything
    new or moving; in state 1 it is replaced by its [cipher] image and the
    head moves right; a space is kept, with a move right, in each of the
    three states; the blank is accepted from state 1 only; and no other
    character has an entry in any of the three states. *)
Theorem cipher_transitions_entries (shift : Z) (a : ascii) :
  (is_lowercase a = true ->
   cipher_transitions shift !! (0, cellof a) =
     Some (1, cellof a, direction.stay) /\
   cipher_transitions shift !! (1, cellof a) =
     Some (1, cellof (cipher a shift), direction.right) /\
   cipher_transitions shift !! (2, cellof a) = None) /\
  (a = " "%char ->
   forall q, q = 0 \/ q = 1 \/ q = 2 ->
     cipher_transitions shift !! (q, cellof a) =
       Some (q, cellof a, direction.right)) /\
  (handled a = false ->
   forall q, q = 0 \/ q = 1 \/ q = 2 ->
     cipher_transitions shift !! (q, cellof a) = None) /\
  cipher_transitions shift !! (0, None) = None /\
  cipher_transitions shift !! (1, None) = Some (2, None, direction.stay) /\
  cipher_transitions shift !! (2, None) = None.
Proof.
  destruct (cipher_table_lookup shift a) as [H0 H1].
  pose proof (cipher_table_accepting_row shift a) as H2.
  split; [|split; [|split; [|apply cipher_table_blank]]].
  - intros Hl. rewrite Hl in H0, H1. split; [exact H0|]. split; [exact H1|].
    rewrite H2. destruct (Ascii.eqb_spec a " "%char) as [->|]; [|reflexivity].
    discriminate Hl.
  - intros -> q [ -> | [ -> | -> ] ]; [exact H0|exact H1|exact H2].
  - intros Hbad q Hq. unfold handled in Hbad.
    apply orb_false_elim in Hbad as [Hl Hs]. rewrite Hl, Hs in H0, H1.
    rewrite Hs in H2. destruct Hq as [ -> | [ -> | -> ] ]; assumption.
Qed.

Section ScanSteps.

Variable shift : Z.

Implicit Types (l : list cell) (i : nat) (done pre rest : list ascii)
  (a : ascii) (q : Z) (ci c out : cell).

Lemma insert_middle_cell l1 l2 (x y : cell) :
  <[length l1 := y]> (l1 ++ x :: l2) = l1 ++ y :: l2.
Proof. induction l1 as [|z l1 IH]; [reflexivity|]. cbn. f_equal. exact IH. Qed.

Lemma tape_at_get_char l i c :
  l !! i = Some c -> get_char (tape_at l i) = Ok c.
Proof.
  intros Hc. rewrite get_char_nonneg by (cbn; lia). cbn [tape_at _list _loc].
  now rewrite Nat2Z.id, Hc.
Qed.

Lemma tape_at_set_char l i c out :
  l !! i = Some c -> set_char out (tape_at l i) = Ok (tape_at (<[i := out]> l) i).
Proof.
  intros Hc. apply lookup_lt_Some in Hc.
  rewrite set_char_nonneg by (cbn; lia). cbn [tape_at _list _loc _min_loc _max_loc].
  destruct (Z.ltb_spec (Z.of_nat i) (Z.of_nat (length l))); [|lia].
  unfold tape_at. now rewrite Nat2Z.id, length_insert.
Qed.

Lemma tape_at_move_right l i :
  (i < length l)%nat ->
  move_right (tape_at l i) =
    if (S i =? length l)%nat then tape_at (l ++ [None]) (S i)
    else tape_at l (S i).
Proof.
  intros Hi. rewrite move_right_cases. unfold tape_at.
  cbn [_list _loc _min_loc _max_loc].
  destruct (Z.eqb_spec (Z.of_nat i) (Z.of_nat (length l) - 1)),
           (Nat.eqb_spec (S i) (length l)); try lia; f_equal; lia.
Qed.

Lemma advance_cipher_hit q ci l i c q' out d :
  l !! i = Some c ->
  cipher_transitions shift !! (q, c) = Some (q', out, d) ->
  advance (cipher_config shift q ci (tape_at l i)) =
    (cipher_config shift q' c (apply_direction d (tape_at (<[i := out]> l) i)),
     Ok tt).
Proof.
  intros Hc Hl.
  destruct (advance_lookup_hit (cipher_config shift q ci (tape_at l i))
              c q' out d) as (t1 & Hset & ->).
  - now apply tape_at_get_char.
  - exact Hl.
  - cbn [tape cipher_config] in Hset.
    rewrite (tape_at_set_char l i c out Hc) in Hset. now injection Hset as <-.
Qed.

Lemma advance_cipher_miss q ci l i c :
  l !! i = Some c ->
  cipher_transitions shift !! (q, c) = None ->
  advance (cipher_config shift q ci (tape_at l i)) =
    (cipher_config shift q c (tape_at l i), Raise (KeyError (q, c))).
Proof.
  intros Hc Hl.
  rewrite (advance_lookup_miss (cipher_config shift q ci (tape_at l i)) c).
  - reflexivity.
  - now apply tape_at_get_char.
  - exact Hl.
Qed.

Lemma scan_tape_at done rest :
  scan_tape done rest = tape_at (map cellof (done ++ rest)) (length done).
Proof. reflexivity. Qed.

Lemma end_tape_at done :
  end_tape done = tape_at (map cellof done ++ [None]) (length done).
Proof. reflexivity. Qed.

Lemma scan_cells_lookup done a rest :
  map cellof (done ++ a :: rest) !! length done = Some (cellof a).
Proof.
  rewrite map_app. cbn [map].
  rewrite <- (length_map cellof done). apply list_lookup_middle. reflexivity.
Qed.

Lemma scan_cells_insert done a a' rest :
  <[length done := cellof a']> (map cellof (done ++ a :: rest)) =
  map cellof (done ++ a' :: rest).
Proof.
  rewrite !map_app. cbn [map].
  rewrite <- (length_map cellof done). apply insert_middle_cell.
Qed.

(** A step that writes [a'] over the character under the head and moves
    right. *)
Lemma step_right q q1 ci done a a' rest :
  cipher_transitions shift !! (q, cellof a) =
    Some (q1, cellof a', direction.right) ->
  advance (cipher_config shift q ci (scan_tape done (a :: rest))) =
    (cipher_config shift q1 (cellof a) (next_tape (done ++ [a']) rest), Ok tt).
Proof.
  intros Hl. rewrite scan_tape_at.
  rewrite (advance_cipher_hit q ci _ _ (cellof a) q1 (cellof a') direction.right
             (scan_cells_lookup done a rest) Hl).
  do 2 f_equal. rewrite scan_cells_insert.
  change (apply_direction direction.right ?t) with (move_right t).
  rewrite tape_at_move_right
    by (rewrite length_map, length_app; cbn [length]; lia).
  rewrite length_map, length_app. cbn [length].
  destruct rest as [|b rest]; cbn [next_tape length].
  - destruct (Nat.eqb_spec (S (length done)) (length done + 1)); [|lia].
    rewrite end_tape_at, length_app. cbn [length].
    now replace (length done + 1)%nat with (S (length done)) by lia.
  - destruct (Nat.eqb_spec (S (length done))
                (length done + S (S (length rest)))); [lia|].
    rewrite scan_tape_at, length_app, <- app_assoc. cbn [length app].
    now replace (length done + 1)%nat with (S (length done)) by lia.
Qed.

(** A step that rewrites the character under the head with itself and
    stays. *)
Lemma step_stay q q1 ci done a rest :
  cipher_transitions shift !! (q, cellof a) =
    Some (q1, cellof a, direction.stay) ->
  advance (cipher_config shift q ci (scan_tape done (a :: rest))) =
    (cipher_config shift q1 (cellof a) (scan_tape done (a :: rest)), Ok tt).
Proof.
  intros Hl. rewrite scan_tape_at.
  rewrite (advance_cipher_hit q ci _ _ (cellof a) q1 (cellof a) direction.stay
             (scan_cells_lookup done a rest) Hl).
  rewrite scan_cells_insert. reflexivity.
Qed.

Lemma step_unhandled q ci done a rest :
  cipher_transitions shift !! (q, cellof a) = None ->
  advance (cipher_config shift q ci (scan_tape done (a :: rest))) =
    (cipher_config shift q (cellof a) (scan_tape done (a :: rest)),
     Raise (KeyError (q, cellof a))).
Proof.
  intros Hl. rewrite scan_tape_at.
  apply advance_cipher_miss; [apply scan_cells_lookup|exact Hl].
Qed.

Lemma end_cells_lookup done :
  (map cellof done ++ [None]) !! length done = Some None.
Proof.
  rewrite <- (length_map cellof done). apply list_lookup_middle. reflexivity.
Qed.

(** Past the last character: state 1 accepts on the blank, state 0 has no
    entry for it. *)
Lemma step_end ci done :
  advance (cipher_config shift 1 ci (end_tape done)) =
    (cipher_config shift 2 None (end_tape done), Ok tt).
Proof.
  rewrite end_tape_at.
  rewrite (advance_cipher_hit 1 ci _ _ None 2 None direction.stay
             (end_cells_lookup done)
             (proj1 (proj2 (cipher_table_blank shift)))).
  rewrite list_insert_id by apply end_cells_lookup. reflexivity.
Qed.

Lemma step_end_unhandled ci done :
  advance (cipher_config shift 0 ci (end_tape done)) =
    (cipher_config shift 0 None (end_tape done), Raise (KeyError (0, None))).
Proof.
  rewrite end_tape_at.
  apply advance_cipher_miss;
    [apply end_cells_lookup|apply (proj1 (cipher_table_blank shift))].
Qed.

End ScanSteps.

Section ScanRuns.

Variable shift : Z.

Implicit Types (done pre rest : list ascii) (a : ascii) (ci : cell)
  (m : TuringMachine).

Lemma advances_step k m m1 :
  accepting m = false ->
  advance m = (m1, Ok tt) ->
  advances (S k) m = advances k m1.
Proof. intros Hacc Hadv. cbn [advances]. now rewrite Hacc, Hadv. Qed.

Lemma advances_trans k1 : forall k2 m m1,
  advances k1 m = Some m1 ->
  advances (k1 + k2) m = advances k2 m1.
Proof.
  induction k1 as [|k1 IH]; intros k2 m m1; cbn [advances Nat.add].
  - now intros [= <-].
  - destruct (accepting m); [discriminate|].
    destruct (advance m) as [m' [[]|e]]; [apply IH|discriminate].
Qed.

(** A run whose steps lead to a non-accepting state in which [advance]
    raises ends with that exception. *)
Lemma run_reaches_raise k : forall fuel draw m m' m'' e out,
  advances k m = Some m' ->
  accepting m' = false ->
  advance m' = (m'', Raise e) ->
  (k < fuel)%nat ->
  snd (run fuel draw false (mkWorld m out)) = Raised e.
Proof.
  induction k as [|k IH]; intros fuel draw m m' m'' e out Hadv Hacc Hstep Hk;
    (destruct fuel as [|fuel]; [lia|]); cbn [run advances machine] in *.
  - injection Hadv as <-. rewrite Hacc, run_body_unfold. cbn [machine].
    now rewrite Hstep.
  - destruct (accepting m) eqn:Hm; [discriminate|].
    destruct (advance m) as [m1 [[]|e1]] eqn:Hs; [|discriminate].
    destruct (run_body_quiet draw (mkWorld m out) m1 Hs) as [out1 ->].
    eapply IH; eauto. lia.
Qed.

Lemma handled_cases a :
  handled a = true ->
  (is_lowercase a = true /\ cipher_symbol shift a = cipher a shift) \/
  (is_lowercase a = false /\ Ascii.eqb a " "%char = true /\
   cipher_symbol shift a = a).
Proof.
  unfold handled, cipher_symbol. destruct (is_lowercase a); cbn; auto.
Qed.

(** In state 1 the head walks over handled characters, one step each,
    leaving their images behind. *)
Lemma scan_state_1 pre : forall done ci rest,
  Forall (fun a => handled a = true) pre ->
  exists ci',
    advances (length pre)
             (cipher_config shift 1 ci (next_tape done (pre ++ rest))) =
    Some (cipher_config shift 1 ci'
            (next_tape (done ++ map (cipher_symbol shift) pre) rest)).
Proof.
  induction pre as [|a pre IH]; intros done ci rest Hall.
  - exists ci. cbn [map length advances app]. now rewrite app_nil_r.
  - inversion Hall as [|? ? Ha Hpre]; subst.
    destruct (IH (done ++ [cipher_symbol shift a]) (cellof a) rest Hpre)
      as [ci' Hrest].
    exists ci'. cbn [length]. rewrite <- app_assoc in Hrest. cbn [app] in Hrest.
    cbn [map]. rewrite <- Hrest.
    apply advances_step; [reflexivity|].
    change (next_tape done ((a :: pre) ++ rest))
      with (scan_tape done (a :: (pre ++ rest))).
    apply step_right.
    destruct (cipher_table_lookup shift a) as [_ H1]. rewrite H1.
    destruct (handled_cases a Ha) as [(Hl & ->)|(Hl & Hs & ->)]; rewrite Hl.
    + reflexivity.
    + now rewrite Hs.
Qed.

(** From state 0 the head skips spaces and, on the first letter, switches
    to state 1 without moving; then it proceeds as above. *)
Lemma scan_state_0 pre : forall done ci rest,
  Forall (fun a => handled a = true) pre ->
  exists k ci',
    (k <= S (length pre))%nat /\
    advances k (cipher_config shift 0 ci (next_tape done (pre ++ rest))) =
    Some (cipher_config shift (if existsb is_lowercase pre then 1 else 0) ci'
            (next_tape (done ++ map (cipher_symbol shift) pre) rest)).
Proof.
  induction pre as [|a pre IH]; intros done ci rest Hall.
  - exists O, ci. split; [cbn; lia|].
    cbn [map length advances app existsb]. now rewrite app_nil_r.
  - inversion Hall as [|? ? Ha Hpre]; subst.
    destruct (cipher_table_lookup shift a) as [H0 _].
    change (next_tape done ((a :: pre) ++ rest))
      with (scan_tape done (a :: (pre ++ rest))).
    destruct (handled_cases a Ha) as [(Hl & Hc)|(Hl & Hs & Hc)];
      rewrite Hl in H0; cbn [existsb]; rewrite Hl; cbn [orb].
    + destruct (scan_state_1 (a :: pre) done (cellof a) rest Hall)
        as [ci' Hrest].
      exists (S (length (a :: pre))), ci'. split; [lia|].
      rewrite <- Hrest. apply advances_step; [reflexivity|].
      now apply step_stay.
    + rewrite Hs in H0.
      destruct (IH (done ++ [a]) (cellof a) rest Hpre) as (k & ci' & Hk & Hrest).
      exists (S k), ci'. split; [cbn [length]; lia|].
      cbn [map]. rewrite Hc.
      rewrite <- app_assoc in Hrest. cbn [app] in Hrest. rewrite <- Hrest.
      apply advances_step; [reflexivity|].
      now apply step_right.
Qed.

Lemma get_string_end_tape done :
  get_string (end_tape done) = String.string_of_list_ascii done.
Proof.
  rewrite get_string_list. cbn [end_tape _list].
  rewrite nonblank_concat_snoc_None.
  induction done as [|a done IH]; [reflexivity|].
  cbn [map nonblank_concat cellof String.string_of_list_ascii].
  now rewrite IH.
Qed.

Lemma cipher_machine_start (text : string) :
  text <> "" ->
  exists ci,
    cipher_machine text shift =
      Ok (cipher_config shift 0 ci
            (next_tape [] (String.list_ascii_of_string text))).
Proof.
  destruct text as [|a s]; [congruence|]. intros _.
  exists (cellof a). reflexivity.
Qed.

Lemma chars_nonempty (text : string) :
  String.list_ascii_of_string text <> [] -> text <> "".
Proof. destruct text; [cbn; congruence|discriminate]. Qed.

End ScanRuns.

Section DemoRuns.

Implicit Types (text : string) (shift : Z) (fuel : nat) (draw : bool).

Lemma length_list_ascii_of_string text :
  length (String.list_ascii_of_string text) = String.length text.
Proof. induction text as [|a s IH]; [reflexivity|]. cbn. now rewrite IH. Qed.

Lemma forallb_handled_Forall (l : list ascii) :
  forallb handled l = true -> Forall (fun a => handled a = true) l.
Proof.
  induction l as [|a l IH]; cbn [forallb]; [constructor|].
  intros [Ha Hl]%andb_prop. constructor; auto.
Qed.

Lemma existsb_nonempty {A} (f : A -> bool) (l : list A) :
  existsb f l = true -> l <> [].
Proof. destruct l; [discriminate|discriminate]. Qed.

Lemma encrypt_run text shift fuel draw :
  forallb handled (String.list_ascii_of_string text) = true ->
  existsb is_lowercase (String.list_ascii_of_string text) = true ->
  (String.length text + 3 <= fuel)%nat ->
  run_cipher fuel text shift draw false = Returned (cipher_string shift text).
Proof.
  intros Hall%forallb_handled_Forall Hex Hfuel.
  rewrite <- length_list_ascii_of_string in Hfuel.
  destruct (cipher_machine_start shift text) as [ci Hstart].
  { apply chars_nonempty. now apply existsb_nonempty in Hex. }
  unfold run_cipher. rewrite Hstart.
  destruct (scan_state_0 shift (String.list_ascii_of_string text) [] ci [] Hall)
    as (k & ci' & Hk & Hscan).
  rewrite app_nil_r, Hex in Hscan. cbn [app next_tape] in Hscan.
  assert (Hsteps :
    advances (k + 1)
      (cipher_config shift 0 ci
         (next_tape [] (String.list_ascii_of_string text))) =
    Some (cipher_config shift 2 None
            (end_tape (map (cipher_symbol shift)
                           (String.list_ascii_of_string text))))).
  { rewrite (advances_trans k 1 _ _ Hscan).
    rewrite (advances_step 0 (cipher_config shift 1 ci' _) _ eq_refl
               (step_end shift ci' _)).
    reflexivity. }
  destruct (run_reaches_accept (k + 1) fuel draw _ _ [] Hsteps eq_refl)
    as [out' ->]; [lia|].
  cbn [snd tape cipher_config]. now rewrite get_string_end_tape.
Qed.

Lemma cipher_symbol_handled shift a :
  handled a = true -> handled (cipher_symbol shift a) = true.
Proof.
  unfold handled, cipher_symbol. destruct (is_lowercase a) eqn:Hl.
  - intros _. now rewrite cipher_is_lowercase.
  - now rewrite Hl.
Qed.

Lemma cipher_symbol_lowercase shift a :
  is_lowercase (cipher_symbol shift a) = is_lowercase a.
Proof.
  unfold cipher_symbol. destruct (is_lowercase a) eqn:Hl; [|exact Hl].
  apply cipher_is_lowercase.
Qed.

Lemma cipher_symbol_inverse shift a :
  cipher_symbol (- shift) (cipher_symbol shift a) = a.
Proof.
  unfold cipher_symbol at 1. rewrite cipher_symbol_lowercase.
  unfold cipher_symbol. destruct (is_lowercase a) eqn:Hl; [|reflexivity].
  apply cipher_inverse. now apply is_lowercase_ord.
Qed.

Lemma list_ascii_of_cipher_string shift text :
  String.list_ascii_of_string (cipher_string shift text) =
  map (cipher_symbol shift) (String.list_ascii_of_string text).
Proof. apply String.list_ascii_of_string_of_list_ascii. Qed.

Lemma cipher_string_inverse shift text :
  cipher_string (- shift) (cipher_string shift text) = text.
Proof.
  unfold cipher_string at 1. rewrite list_ascii_of_cipher_string, map_map.
  rewrite (map_ext _ (fun a => a)) by apply cipher_symbol_inverse.
  rewrite map_id. apply String.string_of_list_ascii_of_string.
Qed.

Lemma cipher_string_length shift text :
  String.length (cipher_string shift text) = String.length text.
Proof.
  rewrite <- !length_list_ascii_of_string, list_ascii_of_cipher_string.
  apply length_map.
Qed.

(** X17: The encrypt run on any text: when the text consists of lowercase
    letters and spaces and has at least one letter, the run returns the
    text with every letter shifted and every space in place, for every
    shift and both values of [draw]; the length of the text plus 3
    evaluations of the loop condition suffice.  The ciphertext has the
    length of the text and again consists of lowercase letters and spaces,
    with a letter wherever the text has one. *)
Theorem encrypt_run_correct text shift fuel draw :
  forallb handled (String.list_ascii_of_string text) = true ->
  existsb is_lowercase (String.list_ascii_of_string text) = true ->
  (String.length text + 3 <= fuel)%nat ->
  run_cipher fuel text shift draw false = Returned (cipher_string shift text) /\
  String.length (cipher_string shift text) = String.length text /\
  forallb handled (String.list_ascii_of_string (cipher_string shift text)) = true /\
  map is_lowercase (String.list_ascii_of_string (cipher_string shift text)) =
    map is_lowercase (String.list_ascii_of_string text).
Proof.
  intros Hall Hex Hfuel.
  split; [now apply encrypt_run|]. split; [apply cipher_string_length|].
  rewrite list_ascii_of_cipher_string. split.
  - apply forallb_forall. intros b [a [<- Ha]]%in_map_iff.
    apply cipher_symbol_handled.
    now apply (proj1 (forallb_forall _ _) Hall).
  - rewrite map_map. apply map_ext. intros a. apply cipher_symbol_lowercase.
Qed.

Lemma encrypt_run_correct_witness :
  forallb handled (String.list_ascii_of_string "to be") = true /\
  existsb is_lowercase (String.list_ascii_of_string "to be") = true /\
  run_cipher 8 "to be" 13 false false = Returned (cipher_string 13 "to be") /\
  cipher_string 13 "to be" = "gb or".
Proof.
  split; [reflexivity|]. split; [reflexivity|]. split; [|reflexivity].
  apply (proj1 (encrypt_run_correct "to be" 13 8 false
                  eq_refl eq_refl ltac:(cbn; lia))).
Defined.

(** X18: The driver's round trip for every text and shift: on a text of
    lowercase letters and spaces with at least one letter, the driver
    yields the shifted text as ciphertext and the original text as the
    decrypted plaintext. *)
Theorem main_round_trip text shift fuel :
  forallb handled (String.list_ascii_of_string text) = true ->
  existsb is_lowercase (String.list_ascii_of_string text) = true ->
  (String.length text + 3 <= fuel)%nat ->
  main fuel text shift = Returned (cipher_string shift text, text).
Proof.
  intros Hall Hex Hfuel. unfold main.
  rewrite (encrypt_run text shift fuel true Hall Hex Hfuel).
  rewrite (encrypt_run (cipher_string shift text) (- shift) fuel true).
  - now rewrite cipher_string_inverse.
  - rewrite list_ascii_of_cipher_string.
    apply forallb_forall. intros b [a [<- Ha]]%in_map_iff.
    apply cipher_symbol_handled.
    now apply (proj1 (forallb_forall _ _) Hall).
  - rewrite list_ascii_of_cipher_string.
    apply existsb_exists in Hex as (a & Ha & Hl).
    apply existsb_exists. exists (cipher_symbol shift a).
    split; [now apply in_map|]. now rewrite cipher_symbol_lowercase.
  - now rewrite cipher_string_length.
Qed.

Lemma main_round_trip_witness :
  forallb handled (String.list_ascii_of_string " xyz abc") = true /\
  existsb is_lowercase (String.list_ascii_of_string " xyz abc") = true /\
  main 11 " xyz abc" (-30) = Returned (cipher_string (-30) " xyz abc", " xyz abc") /\
  cipher_string (-30) " xyz abc" = " tuv wxy".
Proof.
  split; [reflexivity|]. split; [reflexivity|]. split; [|reflexivity].
  apply (main_round_trip " xyz abc" (-30) 11);
    [reflexivity | reflexivity | cbn; lia].
Defined.

(** X19: A character the table does not handle (anything but a lowercase letter
    or a space) ends the encrypt run with [KeyError] when the head reaches
    it, provided what precedes it is handled: the key holds the character
    and state 1 if a letter came before it, state 0 otherwise. *)
Theorem encrypt_run_unhandled text shift fuel draw
    (pre post : list ascii) (bad : ascii) :
  String.list_ascii_of_string text = pre ++ bad :: post ->
  forallb handled pre = true ->
  handled bad = false ->
  (length pre + 2 <= fuel)%nat ->
  run_cipher fuel text shift draw false =
    Raised (KeyError (if existsb is_lowercase pre then 1 else 0, cellof bad)).
Proof.
  intros Htext Hall%forallb_handled_Forall Hbad Hfuel.
  destruct (cipher_machine_start shift text) as [ci Hstart].
  { apply chars_nonempty. rewrite Htext. now destruct pre. }
  unfold run_cipher. rewrite Hstart, Htext.
  destruct (scan_state_0 shift pre [] ci (bad :: post) Hall)
    as (k & ci' & Hk & Hscan).
  cbn [app next_tape] in Hscan.
  destruct (cipher_table_lookup shift bad) as [H0 H1].
  unfold handled in Hbad. apply orb_false_elim in Hbad as [Hl Hs].
  rewrite Hl, Hs in H0, H1.
  eapply (run_reaches_raise k fuel draw _ _ _ _ [] Hscan).
  - now destruct (existsb is_lowercase pre).
  - apply step_unhandled. now destruct (existsb is_lowercase pre).
  - lia.
Qed.

Lemma encrypt_run_unhandled_witness :
  String.list_ascii_of_string "ab, c" =
    String.list_ascii_of_string "ab" ++ ","%char :: String.list_ascii_of_string " c" /\
  handled ","%char = false /\
  run_cipher 10 "ab, c" 5 true false = Raised (KeyError (1, Some ",")).
Proof.
  split; [reflexivity|]. split; [reflexivity|].
  apply (encrypt_run_unhandled "ab, c" 5 10 true
           (String.list_ascii_of_string "ab") (String.list_ascii_of_string " c")
           ","%char);
    [reflexivity | reflexivity | reflexivity | cbn; lia].
Defined.

(** X20: A non-empty text of handled characters without any letter (spaces
    only) ends the encrypt run with [KeyError] for state 0 and the blank:
    the head runs off the text in state 0, which has no entry for a
    blank. *)
Theorem encrypt_run_only_spaces text shift fuel draw :
  text <> "" ->
  forallb handled (String.list_ascii_of_string text) = true ->
  existsb is_lowercase (String.list_ascii_of_string text) = false ->
  (String.length text + 2 <= fuel)%nat ->
  run_cipher fuel text shift draw false = Raised (KeyError (0, None)).
Proof.
  intros Hne Hall%forallb_handled_Forall Hex Hfuel.
  rewrite <- length_list_ascii_of_string in Hfuel.
  destruct (cipher_machine_start shift text Hne) as [ci Hstart].
  unfold run_cipher. rewrite Hstart.
  destruct (scan_state_0 shift (String.list_ascii_of_string text) [] ci [] Hall)
    as (k & ci' & Hk & Hscan).
  rewrite app_nil_r, Hex in Hscan. cbn [app next_tape] in Hscan.
  eapply (run_reaches_raise k fuel draw _ _ _ _ [] Hscan).
  - reflexivity.
  - apply step_end_unhandled.
  - lia.
Qed.

Lemma encrypt_run_only_spaces_witness :
  "   " <> "" /\
  run_cipher 5 "   " 7 false false = Raised (KeyError (0, None)).
Proof.
  split; [discriminate|].
  apply (encrypt_run_only_spaces "   " 7 5 false);
    [discriminate | reflexivity | reflexivity | cbn; lia].
Defined.

End DemoRuns.

(** ** Drawing the tape *)

(** X21: [draw] makes one [print] call per cell and one more to end the line;
    the call for a cell is wrapped in the red escape code exactly when the
    cell's index is the head index; a blank cell and a cell holding a
    space are drawn alike; the bounds play no part. *)
Theorem draw_renders (t : Tape) :
  length (draw t) = S (length (_list t)) /\
  (forall i c,
     _list t !! i = Some c -> draw t !! i = Some (draw_cell (_loc t) i c)) /\
  (forall i c,
     String.prefix char_codes.RED (draw_cell (_loc t) i c) = true <->
     Z.of_nat i = _loc t) /\
  (forall i, draw_cell (_loc t) i None = draw_cell (_loc t) i (Some " ")) /\
  (forall mn mx, draw (mkTape (_list t) (_loc t) mn mx) = draw t).
Proof.
  split; [|split; [|split; [|split]]].
  - unfold draw. rewrite length_app, length_imap. cbn [length]. lia.
  - intros i c Hc. unfold draw.
    rewrite lookup_app_l by (rewrite length_imap; now apply lookup_lt_Some in Hc).
    now rewrite list_lookup_imap, Hc.
  - intros i c. unfold draw_cell.
    destruct (Z.eqb_spec (Z.of_nat i) (_loc t)) as [E|E]; destruct c as [s|];
      split; intros H; try reflexivity; try assumption; try contradiction;
      cbv in H; discriminate.
  - reflexivity.
  - reflexivity.
Qed.
